(** * scrna-parameter-estimation: the analysis notebooks, embedded and verified

    The repository consists of three notebooks:

    - the sampled power analysis (Python, pandas): [Module PowerCurve] for the
      power loop and [Module Pandas] for [drop_zero_col];
    - the generation of simulation data (Python, scanpy): [Module Simulation];
    - the SAVER comparison (R): [Module Saver].

    Each module embeds the cells of its notebook as Rocq functions; the
    sections that follow the modules prove the properties the specification
    states about them.

    Conventions of the embedding.
    - A Python or R exception is a value [Raise e] of the type [result]; a
      cell that raises stops the notebook, so everything after it is skipped.
    - Where a result depends on rounding (the comparison of a mean with a
      threshold, an identity that holds only without rounding: the gene
      filter and the size factors), the numbers are IEEE 754 binary64
      floats: the Standard Library's [SpecFloat], which computes.
    - Where rounding plays no part (p-values read from a file and compared
      with 0.05, ratios of counts) or preserves what is stated (bounds and
      symmetry of the correlations), the numbers are embedded exactly:
      p-values and powers as rationals ([Q]), the SAVER estimates as reals
      ([R]), with a missing number (pandas' NaN, R's NA and NaN) as [None].
    - Library calls (pandas, numpy, scanpy, R's stats) are embedded by what
      they are documented to do on the arguments the notebooks pass. *)

From Stdlib Require Import QArith Reals Lra Lia.
From Stdlib Require Import Floats.SpecFloat.
From stdpp Require Import base option list gmap strings pretty.

#[local] Open Scope nat_scope.

(** ** Exceptions *)

Inductive exn :=
  | FileNotFoundError (path : string)
  | ZeroDivisionError
  | ValueError
  | IndexError
  | SubscriptOutOfBounds
  | NonConformableArrays.

Inductive result (A : Type) : Type :=
  | Ok (a : A)
  | Raise (e : exn).
Arguments Ok {A} a.
Arguments Raise {A} e.

#[global] Instance result_ret : MRet result := @Ok.
#[global] Instance result_bind : MBind result :=
  λ A B f m, match m with Ok a => f a | Raise e => Raise e end.

Definition is_Ok {A} (r : result A) : Prop := ∃ a, r = Ok a.
Definition raises {A} (r : result A) : Prop := ∃ e, r = Raise e.

(** [for x in xs: body], threading the variables the body assigns. *)
Fixpoint for_each {A S : Type} (xs : list A) (body : A → S → result S) (s : S)
  : result S :=
  match xs with
  | [] => Ok s
  | x :: xs' => s' ← body x s; for_each xs' body s'
  end.

(** Python's [a / b] on two [int]s. *)
Definition py_div (a b : nat) : result Q :=
  match b with
  | O => Raise ZeroDivisionError
  | S _ => Ok (Z.of_nat a # Pos.of_nat b)
  end.

(** [x < 0.05] on a float column: NaN compares false. *)
Definition lt_0_05 (x : option Q) : bool :=
  match x with
  | Some q => QMicromega.Qlt_bool q (5 # 100)
  | None => false
  end.

(** Selection by a boolean mask, as pandas' [.loc[:, mask]] and numpy's
    [a[:, mask]] do along an axis: the elements at the positions where the
    mask is true, in order.  (The notebooks compute each mask from the axis
    it selects on, so the two have the same length.) *)
Fixpoint select_by_mask {A} (mask : list bool) (l : list A) : list A :=
  match mask, l with
  | b :: mask', x :: l' =>
      if b then x :: select_by_mask mask' l' else select_by_mask mask' l'
  | _, _ => []
  end.

(** A character occurs in a string. *)
Fixpoint occurs (c : Ascii.ascii) (s : string) : Prop :=
  match s with
  | EmptyString => False
  | String c' s' => c' = c ∨ occurs c s'
  end.

(** * Floating point *)

(** The floats of numpy and R: IEEE 754 binary64, rounding to nearest, ties
    to even. *)
Module Binary64.

Definition float : Type := spec_float.
Definition prec : Z := 53.
Definition emax : Z := 1024.

Definition zero : float := S754_zero false.
Definition nan : float := S754_nan.
(** The float nearest to an integer, and to [m * 2^e]. *)
Definition of_Z (z : Z) : float := binary_normalize prec emax z 0 false.
Definition of_N (n : N) : float := of_Z (Z.of_N n).
Definition of_dyadic (m e : Z) : float := binary_normalize prec emax m e false.

Definition add : float → float → float := SFadd prec emax.
Definition mul : float → float → float := SFmul prec emax.
Definition div : float → float → float := SFdiv prec emax.
Definition ltb : float → float → bool := SFltb.

(** A number, neither NaN nor an infinity. *)
Definition is_finite (x : float) : bool :=
  match x with
  | S754_zero _ | S754_finite _ _ _ => true
  | S754_infinity _ | S754_nan => false
  end.

(** The conversion of a float of another format, rounding. *)
Definition round (x : spec_float) : float :=
  match x with
  | S754_finite s m e => binary_normalize prec emax (cond_Zopp s (Zpos m)) e s
  | _ => x
  end.

(** The rational number a float is, when it is a number. *)
Definition to_Q (x : float) : option Q :=
  match x with
  | S754_zero _ => Some 0%Q
  | S754_finite s m e => Some (inject_Z (cond_Zopp s (Zpos m)) * Qpower 2 e)%Q
  | S754_infinity _ | S754_nan => None
  end.


End Binary64.

(** The accumulator of R's sums and means, C's [long double]: the 80-bit
    extended format of x86, with a significand of 64 bits.  A binary64 float
    is a number of this format as it is. *)
Module Extended.

Definition prec : Z := 64.
Definition emax : Z := 16384.

Definition zero : spec_float := S754_zero false.
Definition of_Z (z : Z) : spec_float := binary_normalize prec emax z 0 false.
Definition add : spec_float → spec_float → spec_float := SFadd prec emax.
Definition sub : spec_float → spec_float → spec_float := SFsub prec emax.
Definition div : spec_float → spec_float → spec_float := SFdiv prec emax.

End Extended.

(** * The sampled power analysis *)

Module PowerCurve.

(** A row of a Matrix eQTL output file and a row of a memento output file,
    with the columns the notebook reads. *)
Record meq_row := { meq_SNP : string; meq_gene : string; meq_p_value : option Q }.
Record mem_row := { mem_tx : string; mem_gene : string; mem_de_pval : option Q }.

(** A row of [merged]: the columns of [mem] (with [tx] renamed to [SNP])
    followed by the remaining column of [meq]. *)
Record merged_row :=
  { SNP : string; gene : string; de_pval : option Q; p_value : option Q }.

Record filesystem :=
  { meq_files : gmap string (list meq_row);
    mem_files : gmap string (list mem_row) }.

Definition read_csv {T} (files : gmap string T) (path : string) : result T :=
  match files !! path with
  | Some t => Ok t
  | None => Raise (FileNotFoundError path)
  end.

Definition data_path : string := "/data_volume/memento/lupus/".

Definition meq_path (pop ct : string) (num_ind resample : nat) : string :=
  data_path +:+ "mateqtl_output/sampled/" +:+ pop +:+ "_" +:+ ct +:+ "_"
    +:+ pretty num_ind +:+ "_" +:+ pretty resample +:+ ".out".

Definition mem_path (pop ct : string) (num_ind resample : nat) : string :=
  data_path +:+ "memento_1k/" +:+ pop +:+ "_" +:+ ct +:+ "_"
    +:+ pretty num_ind +:+ "_" +:+ pretty resample +:+ ".csv".

(** [on=['SNP', 'gene']] *)
Definition key_match (l : mem_row) (r : meq_row) : bool :=
  String.eqb (mem_tx l) (meq_SNP r) && String.eqb (mem_gene l) (meq_gene r).

Definition matches (l : mem_row) (right : list meq_row) : list meq_row :=
  List.filter (key_match l) right.

Definition join_row (l : mem_row) (p : option Q) : merged_row :=
  {| SNP := mem_tx l; gene := mem_gene l; de_pval := mem_de_pval l; p_value := p |}.

(** The rows a left row [l] contributes to a left merge: one for each
    matching row of the right table, or one with NaN when there is none. *)
Definition join_rows (right : list meq_row) (l : mem_row) : list merged_row :=
  match matches l right with
  | [] => [join_row l None]
  | ms => map (λ r, join_row l (meq_p_value r)) ms
  end.

(** [mem.rename(columns={'tx':'SNP'}).merge(meq, on=['SNP', 'gene'], how='left')]:
    the rows of the left table in order, each with its matches. *)
Definition merge_left (left : list mem_row) (right : list meq_row) : list merged_row :=
  flat_map (join_rows right) left.

(** [merged[merged['p-value']<0.05].shape[0]/mem.shape[0]] *)
Definition power_pseudobulk (mem : list mem_row) (meq : list meq_row) : result Q :=
  py_div (length (List.filter (λ r, lt_0_05 (p_value r)) (merge_left mem meq)))
         (length mem).

(** [mem.query('de_pval < 0.05').shape[0]/mem.shape[0]] *)
Definition power_memento (mem : list mem_row) : result Q :=
  py_div (length (List.filter (λ r, lt_0_05 (mem_de_pval r)) mem)) (length mem).

(** A record of [result_df]. *)
Record record :=
  { pop : string; num_ind : nat; resample : nat; ct : string;
    method : string; power : Q }.

Abbreviation condition := (string * nat * nat * string)%type.

(** The body of the innermost loop. *)
Definition body (fs : filesystem) (pop : string) (num_ind resample : nat) (ct : string)
    (result_df : list record) : result (list record) :=
  meq ← read_csv (meq_files fs) (meq_path pop ct num_ind resample);
  mem ← read_csv (mem_files fs) (mem_path pop ct num_ind resample);
  p ← power_pseudobulk mem meq;
  let result_df := result_df ++ [Build_record pop num_ind resample ct "Pseudobulk" p] in
  p ← power_memento mem;
  let result_df := result_df ++ [Build_record pop num_ind resample ct "memento" p] in
  Ok result_df.

(** The loop of the notebook, over any populations, individual counts,
    number of resamples and cell types. *)
Definition power_curve (fs : filesystem) (pops : list string) (num_inds : list nat)
    (num_resample : nat) (cts : list string) : result (list record) :=
  for_each pops (λ pop,
    for_each num_inds (λ num_ind,
      for_each (seq 0 num_resample) (λ resample,
        for_each cts (λ ct, body fs pop num_ind resample ct)))) [].

(** [Series.drop_duplicates().tolist()]: the first occurrence of each value. *)
Fixpoint drop_duplicates_from (seen l : list string) : list string :=
  match l with
  | [] => []
  | x :: l' => if bool_decide (x ∈ seen) then drop_duplicates_from seen l'
               else x :: drop_duplicates_from (x :: seen) l'
  end.
Definition drop_duplicates : list string → list string := drop_duplicates_from [].

(** The notebook's values: [pop] ranges over ['asian'], [num_inds] and
    [num_resample] are set in the third cell, and [cts] is the [cg_cov]
    column of the OneK1K replication table without duplicates. *)
Definition num_inds : list nat := [50; 60; 70; 80].
Definition num_resample : nat := 10.
Definition result_df (fs : filesystem) (cg_cov : list string) : result (list record) :=
  power_curve fs ["asian"] num_inds num_resample (drop_duplicates cg_cov).

(** What the specification calls the join cardinality invariant. *)
Definition join_cardinality (mem : list mem_row) (meq : list meq_row) : Prop :=
  Forall (λ l, length (matches l meq) ≤ 1) mem.

(** The loop's conditions in the order it visits them. *)
Definition conditions (pops : list string) (num_inds : list nat)
    (num_resample : nat) (cts : list string) : list condition :=
  pop ← pops; num_ind ← num_inds; resample ← seq 0 num_resample; ct ← cts;
  [(pop, num_ind, resample, ct)].

Abbreviation label := (string * nat * nat * string * string)%type.
Definition label_of (r : record) : label :=
  (pop r, num_ind r, resample r, ct r, method r).
Definition labels_of_condition (c : condition) : list label :=
  let '(pop, num_ind, resample, ct) := c in
  [(pop, num_ind, resample, ct, "Pseudobulk"); (pop, num_ind, resample, ct, "memento")].

(** The two records one condition contributes, as [body] computes them. *)
Definition records_of (fs : filesystem) (c : condition) : result (list record) :=
  let '(pop, num_ind, resample, ct) := c in
  meq ← read_csv (meq_files fs) (meq_path pop ct num_ind resample);
  mem ← read_csv (mem_files fs) (mem_path pop ct num_ind resample);
  p ← power_pseudobulk mem meq;
  q ← power_memento mem;
  Ok [Build_record pop num_ind resample ct "Pseudobulk" p;
      Build_record pop num_ind resample ct "memento" q].

(** The condition of a record, and the join cardinality invariant for the
    two tables read for it. *)
Definition condition_of (r : record) : condition :=
  (pop r, num_ind r, resample r, ct r).
Definition join_cardinality_at (fs : filesystem) (c : condition) : Prop :=
  let '(pop, num_ind, resample, ct) := c in
  ∀ meq mem,
    meq_files fs !! meq_path pop ct num_ind resample = Some meq →
    mem_files fs !! mem_path pop ct num_ind resample = Some mem →
    join_cardinality mem meq.

(** Test data: a file system that holds the same two tables for each of the
    given conditions. *)
Definition uniform_fs (cs : list condition) (meq : list meq_row) (mem : list mem_row)
  : filesystem :=
  {| meq_files := list_to_map
       (map (λ '(pop, num_ind, resample, ct), (meq_path pop ct num_ind resample, meq)) cs);
     mem_files := list_to_map
       (map (λ '(pop, num_ind, resample, ct), (mem_path pop ct num_ind resample, mem)) cs) |}.

Definition example_meq : list meq_row :=
  [ {| meq_SNP := "rs1"; meq_gene := "G1"; meq_p_value := Some (1 # 100) |};
    {| meq_SNP := "rs2"; meq_gene := "G2"; meq_p_value := Some (1 # 2) |} ].
Definition example_mem : list mem_row :=
  [ {| mem_tx := "rs1"; mem_gene := "G1"; mem_de_pval := Some (3 # 100) |};
    {| mem_tx := "rs2"; mem_gene := "G2"; mem_de_pval := Some (2 # 100) |};
    {| mem_tx := "rs3"; mem_gene := "G3"; mem_de_pval := None |} ].
(** A Matrix eQTL table that lists the pair (rs1, G1) twice. *)
Definition duplicated_meq : list meq_row :=
  [ {| meq_SNP := "rs1"; meq_gene := "G1"; meq_p_value := Some (1 # 100) |};
    {| meq_SNP := "rs1"; meq_gene := "G1"; meq_p_value := Some (2 # 100) |} ].
Definition single_mem : list mem_row :=
  [ {| mem_tx := "rs1"; mem_gene := "G1"; mem_de_pval := Some (3 # 100) |} ].

Definition example_fs : filesystem :=
  uniform_fs (conditions ["asian"] [50] 2 ["B"; "T4"]) example_meq example_mem.
(** One condition, whose Matrix eQTL table lists a pair twice. *)
Definition duplicated_fs : filesystem :=
  uniform_fs (conditions ["asian"] [50] 1 ["B"]) duplicated_meq single_mem.
(** Every file of the notebook's run over the cell type B exists, and the
    memento tables have a header and no rows. *)
Definition empty_tables_fs : filesystem :=
  uniform_fs (conditions ["asian"] num_inds num_resample ["B"]) example_meq [].
(** The file system of [example_fs] without the memento file of the last
    condition. *)
Definition missing_file_fs : filesystem :=
  {| meq_files := meq_files example_fs;
     mem_files := delete (mem_path "asian" "T4" 50 1) (mem_files example_fs) |}.

(** [result_df.query('ct == "{}"'.format(ct))], the records each panel of
    the figure plots. *)
Definition query_ct (c : string) (table : list record) : list record :=
  List.filter (λ r, String.eqb (ct r) c) table.

(** A test is significant for a memento row when it matches the row's pair
    and its p-value is below 0.05. *)
Definition significant_matches (meq : list meq_row) (l : mem_row) : list meq_row :=
  List.filter (λ r, lt_0_05 (meq_p_value r)) (matches l meq).

(** The rows of the Matrix eQTL table whose pair occurs in the memento
    table. *)
Definition relevant (mem : list mem_row) (meq : list meq_row) : list meq_row :=
  List.filter (λ r, existsb (λ l, key_match l r) mem) meq.

(** Test data: [example_fs] with a file the run does not read, and a Matrix
    eQTL table with a row for a pair the memento table does not have. *)
Definition crowded_fs : filesystem :=
  {| meq_files := <["notes.txt" := duplicated_meq]> (meq_files example_fs);
     mem_files := mem_files example_fs |}.
Definition extended_meq : list meq_row :=
  example_meq ++ [ {| meq_SNP := "rs9"; meq_gene := "G9"; meq_p_value := Some (1 # 1000) |} ].

End PowerCurve.

(** ** [drop_zero_col] and the objects it creates *)

Module Pandas.

(** An entry of a numeric dataframe. *)
Inductive cell :=
  | Num (q : Q)
  | NaN.

(** [x != 0]: true for every number other than zero, and for NaN. *)
Definition ne_zero (x : cell) : bool :=
  match x with
  | Num q => negb (Qeq_bool q 0)
  | NaN => true
  end.

(** A dataframe: the row labels and the columns, in order, each with its
    label and its values. *)
Record DataFrame :=
  { index : list string;
    columns : list (string * list cell) }.

(** Dataframes are objects: a variable holds a reference to one, and the
    heap maps references to the objects' current values. *)
Abbreviation ref := positive.
Abbreviation heap := (gmap positive DataFrame).

(** Programs over the heap.  [None] stands for the use of a reference that
    is not an object of the heap, which Python rules out. *)
Definition prog (A : Type) : Type := heap → option (A * heap).

#[global] Instance prog_ret : MRet prog := λ A a h, Some (a, h).
#[global] Instance prog_bind : MBind prog :=
  λ A B f m h, match m h with Some (a, h') => f a h' | None => None end.

(** A new object. *)
Definition alloc (d : DataFrame) : prog ref :=
  λ h, let l := fresh (dom h) in Some (l, <[l := d]> h).

Definition load (l : ref) : prog DataFrame :=
  λ h, match h !! l with Some d => Some (d, h) | None => None end.

(** [(df != 0).any(axis=0)]: for each column, whether some entry differs
    from zero. *)
Definition any_ne_zero (d : DataFrame) : list bool :=
  map (λ c, existsb ne_zero c.2) (columns d).

(** [df.loc[:, mask]]: a new dataframe with all the rows and the columns the
    mask selects. *)
Definition loc_columns (df : ref) (mask : list bool) : prog ref :=
  d ← load df;
  alloc {| index := index d; columns := select_by_mask mask (columns d) |}.

(** [df.copy()]: a new object with the same value. *)
Definition copy (df : ref) : prog ref :=
  d ← load df; alloc d.

(** [def drop_zero_col(df): return df.loc[:, (df != 0).any(axis=0)].copy()] *)
Definition drop_zero_col (df : ref) : prog ref :=
  d ← load df;
  selected ← loc_columns df (any_ne_zero d);
  copy selected.

(** An entry that differs from zero (as NaN does), and a column with such an
    entry. *)
Definition nonzero (x : cell) : Prop :=
  match x with
  | Num q => ¬ (q == 0)%Q
  | NaN => True
  end.
Definition has_nonzero (c : string * list cell) : Prop := Exists nonzero c.2.

#[global] Instance nonzero_dec x : Decision (nonzero x).
Proof.
  destruct x as [q|]; simpl; [|left; exact I].
  destruct (Qeq_dec q 0) as [H|H]; [right; tauto|left; exact H].
Defined.
#[global] Instance has_nonzero_dec c : Decision (has_nonzero c).
Proof. unfold has_nonzero. apply _. Defined.

(** Test data: genotypes of three SNPs for two individuals, the second SNP
    absent from both. *)
Definition example_df : DataFrame :=
  {| index := ["ind1"; "ind2"];
     columns := [("rs1", [Num 0; Num 1]); ("rs2", [Num 0; Num 0]); ("rs3", [NaN; Num 0])] |}.
Definition example_heap : heap := {[ 1%positive := example_df ]}.

(** The shape of a dataframe: every column has a value for each row. *)
Definition well_shaped (d : DataFrame) : Prop :=
  Forall (λ c, length c.2 = length (index d)) (columns d).

(** Test data: genotypes without an absent SNP, and genotypes of two SNPs
    for no individual. *)
Definition full_df : DataFrame :=
  {| index := ["ind1"; "ind2"];
     columns := [("rs1", [Num 0; Num 1]); ("rs3", [NaN; Num 0])] |}.
Definition no_rows_df : DataFrame :=
  {| index := []; columns := [("rs1", []); ("rs2", [])] |}.

End Pandas.

(** * The generation of simulation data *)

Module Simulation.

(** An annotated count matrix: the names of the observations (cells, the
    rows of [X]), the names of the variables (genes, the columns of [X]) and
    the counts. *)
Record AnnData :=
  { obs_names : list string;
    var_names : list string;
    X : list (list Z) }.

Definition n_obs (adata : AnnData) : nat := length (obs_names adata).
Definition n_vars (adata : AnnData) : nat := length (var_names adata).

(** The shape invariant AnnData maintains: [X] is [n_obs] by [n_vars]. *)
Definition well_formed (adata : AnnData) : Prop :=
  length (X adata) = n_obs adata
  ∧ Forall (λ row, length row = n_vars adata) (X adata).


Definition column (adata : AnnData) (j : nat) : list Z :=
  map (λ row, nth j row 0%Z) (X adata).

(** The entry of [X.mean(axis=0)] for column [j].  For a sparse matrix of
    counts scipy computes [(X * (1.0 / X.shape[0])).sum(axis=0)] in float64:
    every entry is multiplied by the reciprocal of the number of rows, and
    the products of a column are added up from 0.0, row by row. *)
Definition column_mean (adata : AnnData) (j : nat) : Binary64.float :=
  let scale := Binary64.div (Binary64.of_Z 1) (Binary64.of_Z (Z.of_nat (n_obs adata))) in
  foldl (λ acc x, Binary64.add acc (Binary64.mul (Binary64.of_Z x) scale))
        Binary64.zero (column adata j).

(** [X.mean(axis=0)]: the division [1.0 / X.shape[0]] raises when [X] has no
    row. *)
Definition mean_axis0 (adata : AnnData) : result (list Binary64.float) :=
  match n_obs adata with
  | O => Raise ZeroDivisionError
  | S _ => Ok (map (column_mean adata) (seq 0 (n_vars adata)))
  end.

(** [m > 2.5] *)
Definition gt_2_5 (m : Binary64.float) : bool :=
  Binary64.ltb (Binary64.of_dyadic 5 (-1)) m.


(** [subset[:, mask]]: all the observations, the variables the mask selects. *)
Definition select_vars (adata : AnnData) (mask : list bool) : AnnData :=
  {| obs_names := obs_names adata;
     var_names := select_by_mask mask (var_names adata);
     X := map (select_by_mask mask) (X adata) |}.

(** [subset = subset[:,(subset.X.mean(axis=0) > 2.5).A1].copy()] *)
Definition gene_filter (subset : AnnData) : result AnnData :=
  means ← mean_axis0 subset;
  Ok (select_vars subset (map gt_2_5 means)).

(** The indices of the variables whose computed mean exceeds 2.5, in
    increasing order. *)
Definition kept_vars (adata : AnnData) : list nat :=
  List.filter (λ j, gt_2_5 (column_mean adata j)) (seq 0 (n_vars adata)).

(** [np.random.choice(a, size=size, replace=False)]: the first [size]
    entries of a permutation of [range(a)] that the generator draws, here
    [perm]; numpy raises ValueError when [size] exceeds the population. *)
Definition random_choice (perm : list nat) (a size : nat) : result (list nat) :=
  if decide (size ≤ a) then Ok (take size perm) else Raise ValueError.

Definition getitem {A} (l : list A) (i : nat) : result A :=
  match l !! i with
  | Some x => Ok x
  | None => Raise IndexError
  end.

(** [adata[obs_indices]]: the observations at the given positions. *)
Definition index_obs (adata : AnnData) (obs_indices : list nat) : result AnnData :=
  names ← mapM (getitem (obs_names adata)) obs_indices;
  rows ← mapM (getitem (X adata)) obs_indices;
  Ok {| obs_names := names; var_names := var_names adata; X := rows |}.

(** [sc.pp.subsample(data, n_obs=new_n_obs, copy=True)], which scanpy
    implements as
      [obs_indices = np.random.choice(old_n_obs, size=new_n_obs, replace=False)]
      [return data[obs_indices].copy()]. *)
Definition subsample (perm : list nat) (data : AnnData) (new_n_obs : nat)
  : result AnnData :=
  let old_n_obs := n_obs data in
  obs_indices ← random_choice perm old_n_obs new_n_obs;
  index_obs data obs_indices.

(** The two uses in the notebook. *)
Definition downsampled_subset (perm : list nat) (cells : AnnData) : result AnnData :=
  subsample perm cells 1000.
Definition n_cells : nat := 250.
Definition adata_sample (perm : list nat) (adata : AnnData) : result AnnData :=
  subsample perm adata n_cells.

(** Test data: four cells and three genes. *)
Definition example_adata : AnnData :=
  {| obs_names := ["c1"; "c2"; "c3"; "c4"];
     var_names := ["g1"; "g2"; "g3"];
     X := [[3; 0; 2]; [4; 1; 3]; [2; 0; 2]; [5; 1; 3]]%Z |}.


(** ** The names of the genes *)

Import Stdlib.Strings.Ascii.

(** [x.split(sep)] for a separator of one character. *)
Fixpoint split (sep : Ascii.ascii) (x : string) : list string :=
  match x with
  | EmptyString => [EmptyString]
  | String c x' =>
      if Ascii.eqb c sep then EmptyString :: split sep x'
      else match split sep x' with
           | piece :: pieces => String c piece :: pieces
           | [] => [String c EmptyString]
           end
  end.

(** [sep.join(pieces)] *)
Fixpoint join (sep : string) (pieces : list string) : string :=
  match pieces with
  | [] => EmptyString
  | [piece] => piece
  | piece :: rest => piece +:+ sep +:+ join sep rest
  end.

(** [lambda x: '-'.join(x.split('.'))] *)
Definition rename_var (x : string) : string := join "-" (split "."%char x).

(** [adata.var.index = adata.var.index.map(lambda x: '-'.join(x.split('.')))] *)
Definition rename_vars (adata : AnnData) : AnnData :=
  {| obs_names := obs_names adata;
     var_names := map rename_var (var_names adata);
     X := X adata |}.

(** A string with every occurrence of one character replaced by another. *)
Fixpoint replace_char (c d : Ascii.ascii) (x : string) : string :=
  match x with
  | EmptyString => EmptyString
  | String a x' => String (if Ascii.eqb a c then d else a) (replace_char c d x')
  end.

(** ** The downsampled dataset *)

(** A dataset with the two columns of [obs] the notebook reads. *)
Record dataset :=
  { adata : AnnData;
    cell : list string;
    stim : list string }.

(** Every observation has a row of counts and a value in each column. *)
Definition complete (d : dataset) : Prop :=
  well_formed (adata d)
  ∧ length (cell d) = n_obs (adata d)
  ∧ length (stim d) = n_obs (adata d).

(** [(d.obs.cell == 'CD14+ Monocytes') & (d.obs.stim == s)] *)
Definition monocytes_with (s : string) (d : dataset) : list bool :=
  zip_with andb (map (λ x, String.eqb x "CD14+ Monocytes") (cell d))
                (map (λ x, String.eqb x s) (stim d)).

(** [d[mask]]: the observations the mask selects, over all the variables. *)
Definition select_obs (d : dataset) (mask : list bool) : dataset :=
  {| adata := {| obs_names := select_by_mask mask (obs_names (adata d));
                 var_names := var_names (adata d);
                 X := select_by_mask mask (X (adata d)) |};
     cell := select_by_mask mask (cell d);
     stim := select_by_mask mask (stim d) |}.

(** [sc.pp.subsample(d, n_obs=new_n_obs, copy=True)] on a dataset: the
    columns of [obs] are indexed with the observations. *)
Definition subsample_dataset (perm : list nat) (d : dataset) (new_n_obs : nat)
  : result dataset :=
  let old_n_obs := n_obs (adata d) in
  obs_indices ← random_choice perm old_n_obs new_n_obs;
  a ← index_obs (adata d) obs_indices;
  c ← mapM (getitem (cell d)) obs_indices;
  s ← mapM (getitem (stim d)) obs_indices;
  Ok {| adata := a; cell := c; stim := s |}.

(** [sc.AnnData.concatenate(a, b)] for two datasets over the same variables,
    as the two samples of one dataset are: the observations of [a], then
    those of [b], their names made unique with the batch suffixes. *)
Definition concatenate (a b : dataset) : dataset :=
  {| adata := {| obs_names := map (λ x, x +:+ "-0") (obs_names (adata a))
                              ++ map (λ x, x +:+ "-1") (obs_names (adata b));
                 var_names := var_names (adata a);
                 X := X (adata a) ++ X (adata b) |};
     cell := cell a ++ cell b;
     stim := stim a ++ stim b |}.

Definition gene_filter_dataset (d : dataset) : result dataset :=
  a ← gene_filter (adata d);
  Ok {| adata := a; cell := cell d; stim := stim d |}.

(** The cell that builds [subset], for [n] cells of each condition (1000 in
    the notebook) and the permutations the two subsamplings draw. *)
Definition make_subset (n : nat) (perm_ctrl perm_stim : list nat) (ifn_adata : dataset)
  : result dataset :=
  ctrl_subset ← subsample_dataset perm_ctrl
                  (select_obs ifn_adata (monocytes_with "ctrl" ifn_adata)) n;
  stim_subset ← subsample_dataset perm_stim
                  (select_obs ifn_adata (monocytes_with "stim" ifn_adata)) n;
  let subset := concatenate ctrl_subset stim_subset in
  gene_filter_dataset subset.

Definition subset : list nat → list nat → dataset → result dataset :=
  make_subset 1000.

(** [subset.obs['stim_indicator'] = (subset.obs.stim == 'stim').astype(int)] *)
Definition stim_indicator (d : dataset) : list Z :=
  map (λ s, if String.eqb s "stim" then 1%Z else 0%Z) (stim d).

(** Test data: [example_adata] with its cells annotated. *)
Definition example_dataset : dataset :=
  {| adata := example_adata;
     cell := ["CD14+ Monocytes"; "B cells"; "CD14+ Monocytes"; "CD14+ Monocytes"];
     stim := ["stim"; "ctrl"; "ctrl"; "stim"] |}.

(** ** The subsampled replicates *)

Definition data_path : string := "/data_volume/memento/simulation/".

(** [data_path + 'acc_fpr/subsampled/subampled_{}_{}_norm.h5ad'.format(n_cells, replicate)] *)
Definition subsampled_path (n_cells replicate : nat) : string :=
  data_path +:+ "acc_fpr/subsampled/subampled_" +:+ pretty n_cells +:+ "_"
    +:+ pretty replicate +:+ "_norm.h5ad".

(** The loop that writes the replicates, for any number of replicates and of
    cells; [perms replicate] is the permutation the replicate's subsampling
    draws, and [files] maps the paths of the dataset files to their
    contents. *)
Definition write_samples (replicates n_cells : nat) (perms : nat → list nat)
    (adata : AnnData) (files : gmap string AnnData) : result (gmap string AnnData) :=
  for_each (seq 0 replicates)
    (λ replicate files,
       adata_sample ← subsample (perms replicate) adata n_cells;
       Ok (<[subsampled_path n_cells replicate := adata_sample]> files))
    files.

(** The notebook's loop: ten replicates of 250 cells. *)
Definition write_subsampled : (nat → list nat) → AnnData → gmap string AnnData
                              → result (gmap string AnnData) :=
  write_samples 10 n_cells.

End Simulation.

(** * The SAVER comparison *)

Module Saver.

(** ** The size factors *)

(** A count matrix as R holds it: genes by cells, with its number of
    columns. *)
Record count_matrix :=
  { n_cells : nat;
    counts : list (list N) }.

(** [colSums(x)] *)
Definition colSums (x : count_matrix) : list N :=
  map (λ j, foldr N.add 0%N (map (λ gene, nth j gene 0%N) (counts x)))
      (seq 0 (n_cells x)).

(** [colSums] delivers the sums as doubles: the sum of counts is an integer,
    which R's accumulator holds as it is, and the double nearest to it. *)
Definition colSums_double (x : count_matrix) : list Binary64.float :=
  map Binary64.of_N (colSums x).

(** [mean(x)] on a vector of doubles, as R computes it: the sum, from left to
    right, and its quotient by the length in an extended accumulator; when
    that is finite, a second pass that adds the mean of the deviations from
    it; and the conversion of the result to a double.  The mean of the empty
    vector is NaN (0 / 0), and a NaN in the vector makes the mean NaN. *)
Definition mean (x : list Binary64.float) : Binary64.float :=
  let n := Extended.of_Z (Z.of_nat (length x)) in
  let s := Extended.div (foldl Extended.add Extended.zero x) n in
  let s :=
    if Binary64.is_finite (Binary64.round s)
    then Extended.add s
           (Extended.div
              (foldl (λ t xk, Extended.add t (Extended.sub xk s)) Extended.zero x) n)
    else s in
  Binary64.round s.

(** [sf <- colSums(dropseq_data)/mean(colSums(dropseq_data))] *)
Definition sf (dropseq_data : count_matrix) : list Binary64.float :=
  let sums := colSums_double dropseq_data in
  map (λ s, Binary64.div s (mean sums)) sums.


(** ** The adjusted correlations *)

(** A real of an R vector or matrix; [None] is a value that is not a finite
    number (NA or NaN in the data; NaN or an infinity from a division by
    zero or the square root of a negative number).  The arithmetic on them
    is exact; what is stated over it below, the shape of the computation, the
    bounds of its results and their symmetry, is what rounding to nearest
    preserves. *)
Abbreviation num := (option R).
Abbreviation matrix := (list (list num)).

Definition nadd (x y : num) : num := a ← x; b ← y; Some (a + b)%R.
Definition nmul (x y : num) : num := a ← x; b ← y; Some (a * b)%R.
Definition nsq (x : num) : num := a ← x; Some (a ^ 2)%R.
Definition ndiv (x y : num) : num :=
  a ← x; b ← y; if Req_dec_T b 0 then None else Some (a / b)%R.
(** [sqrt(x)]: NaN for a negative number.  The root is the exact one, whose
    square is the number again; the root that R computes is rounded, and its
    square can differ from the number in the last place.  Only the sign and
    the monotonicity of the root are used below. *)
Definition nsqrt (x : num) : num :=
  a ← x; if Rle_dec 0 a then Some (sqrt a) else None.

(** Arithmetic on two vectors of the same length. *)
Definition vmul (x y : list num) : list num := zip_with nmul x y.
Definition vsq (x : list num) : list num := map nsq x.

(** [na.rm = TRUE] *)
Definition na_rm (x : list num) : list R := omap Datatypes.id x.

Definition sum_R (l : list R) : R := foldr Rplus 0%R l.
Definition mean_R (l : list R) : R := (sum_R l / INR (length l))%R.
(** The sum of the squared deviations from the mean. *)
Definition sum_sq_dev (l : list R) : R :=
  sum_R (map (λ x, (x - mean_R l) ^ 2)%R l).
(** The sum of the products of the deviations from the means. *)
Definition sum_prod_dev (l k : list R) : R :=
  sum_R (zip_with (λ x y, (x - mean_R l) * (y - mean_R k))%R l k).

(** [mean(x, na.rm = TRUE)]: NaN when nothing remains. *)
Definition mean_na_rm (x : list num) : num :=
  match na_rm x with
  | [] => None
  | xs => Some (mean_R xs)
  end.

(** [var(x, na.rm = TRUE)]: NA when fewer than two values remain. *)
Definition var_na_rm (x : list num) : num :=
  let xs := na_rm x in
  if decide (length xs < 2) then None
  else Some (sum_sq_dev xs / (INR (length xs) - 1))%R.

(** The entry of [cor] for two different variables: NA when a value is
    missing, when there are fewer than two observations or when a standard
    deviation is zero.  (R clamps the quotient to [-1, 1], where the exact
    quotient lies in any case.) *)
Definition pearson (x y : list num) : num :=
  xs ← mapM Datatypes.id x; ys ← mapM Datatypes.id y;
  if decide (length xs < 2) then None
  else if Req_dec_T (sum_sq_dev xs * sum_sq_dev ys) 0 then None
  else Some (sum_prod_dev xs ys / sqrt (sum_sq_dev xs * sum_sq_dev ys))%R.

(** [m[i, ]] *)
Definition row (m : matrix) (i : nat) : result (list num) :=
  match m !! i with
  | Some r => Ok r
  | None => Raise SubscriptOutOfBounds
  end.

(** The right-hand side of the assignment to [adj.vec[i]]. *)
Definition adj_entry (estimate_i se_i sf : list num) : num :=
  nsqrt (ndiv (var_na_rm (vmul estimate_i sf))
              (nadd (var_na_rm (vmul estimate_i sf))
                    (mean_na_rm (vmul (vsq se_i) (vsq sf))))).

(** [adj.vec <- rep(0, n); for (i in 1:n) { adj.vec[i] <- ... }], for the
    [n] the notebook writes as 12241 (any [n] of at least 1: R's [1:0] counts
    down); positions count from zero here. *)
Definition adj_vec (n : nat) (estimate se : matrix) (sf : list num)
  : result (list num) :=
  for_each (seq 0 n)
    (λ i adj_vec,
       estimate_i ← row estimate i;
       se_i ← row se i;
       Ok (<[i := adj_entry estimate_i se_i sf]> adj_vec))
    (replicate n (Some 0%R)).

(** [outer(x, y)] *)
Definition outer (x y : list num) : matrix :=
  map (λ a, map (λ b, nmul a b) y) x.

(** The entry of [cor(m)] for the variables [i] and [j], whose observations
    are [x] and [y]: with fewer than two observations every entry is NA;
    otherwise R sets the diagonal to 1, whatever the variable holds (missing
    values and constant variables included), and computes the correlation of
    two different variables. *)
Definition cor_entry (i j : nat) (x y : list num) : num :=
  if decide (length x < 2) then None
  else if decide (i = j) then Some 1%R
  else pearson x y.

(** [cor(t(sweep(estimate, 2, sf, "*")))]: the correlations between the
    genes, each gene's estimates multiplied by the size factors. *)
Definition temp_cor (estimate : matrix) (sf : list num) : matrix :=
  let scaled := map (λ gene, vmul gene sf) estimate in
  imap (λ i x, imap (λ j y, cor_entry i j x y) scaled) scaled.

(** [a * b] on two matrices, which must have the same dimensions. *)
Definition mat_mul_elementwise (a b : matrix) : result matrix :=
  if decide (map length a = map length b)
  then Ok (zip_with (zip_with nmul) a b)
  else Raise NonConformableArrays.

(** The cells that compute [saver.cor]. *)
Definition saver_cor (n : nat) (estimate se : matrix) (sf : list num)
  : result matrix :=
  adj_vec ← adj_vec n estimate se sf;
  let scale_factor := outer adj_vec adj_vec in
  let temp_cor := temp_cor estimate sf in
  mat_mul_elementwise temp_cor scale_factor.

(** The notebook's run: 12241 genes, the size factors of the data. *)
Definition n_genes : nat := N.to_nat 12241.
Definition sf_R (dropseq_data : count_matrix) : list num :=
  map (λ x, Q2R <$> Binary64.to_Q x) (sf dropseq_data).
Definition notebook_saver_cor (dropseq_data : count_matrix) (estimate se : matrix)
  : result matrix :=
  saver_cor n_genes estimate se (sf_R dropseq_data).

(** The shapes of a SAVER fit of [n] genes: an estimate and a standard error
    for each gene and cell, and a size factor for each cell. *)
Definition saver_fit (n : nat) (estimate se : matrix) (sf : list num) : Prop :=
  0 < n ∧ length estimate = n ∧ length se = n
  ∧ Forall (λ gene, length gene = length sf) estimate
  ∧ Forall (λ gene, length gene = length sf) se.

(** The entry of a matrix at row [i] and column [j]. *)
Definition entry (m : matrix) (i j : nat) : option num :=
  r ← m !! i; r !! j.

Definition example_estimate : matrix := [[Some 0; Some 2]; [Some 2; Some 0]]%R.
Definition example_se : matrix := [[Some 1; Some 1]; [Some 1; None]]%R.
Definition example_sf : list num := [Some 1; Some 1]%R.
(** Test data: one gene with the same estimate in both cells and standard
    errors of zero. *)
Definition constant_estimate : matrix := [[Some 1; Some 1]]%R.
Definition zero_se : matrix := [[Some 0; Some 0]]%R.

End Saver.

(** * Proofs: the error monad and the loops *)

Section for_each_facts.
Context {A S : Type}.
Implicit Types (xs : list A) (body : A → S → result S) (s : S).

Lemma for_each_app xs ys body s :
  for_each (xs ++ ys) body s = s' ← for_each xs body s; for_each ys body s'.
Proof.
  revert s. induction xs as [|x xs IH]; intros s; simpl; [done|].
  destruct (body x s) as [s'|e]; simpl; [apply IH|done].
Qed.

Lemma for_each_ext xs body body' s :
  (∀ x s, x ∈ xs → body x s = body' x s) →
  for_each xs body s = for_each xs body' s.
Proof.
  revert s. induction xs as [|x xs IH]; intros s Hext; simpl; [done|].
  rewrite Hext by left. destruct (body' x s) as [s'|e]; simpl; [|done].
  apply IH. intros y t Hy. apply Hext. by right.
Qed.

End for_each_facts.


Lemma for_each_singleton {A S} (x : A) (body : A → S → result S) (s : S) :
  for_each [x] body s = body x s.
Proof. simpl. by destruct (body x s). Qed.

(** A loop over a list built by a comprehension is the nested loop. *)
Lemma for_each_bind {A B S} (xs : list A) (f : A → list B)
    (body : B → S → result S) (s : S) :
  for_each (x ← xs; f x) body s = for_each xs (λ x, for_each (f x) body) s.
Proof.
  revert s. induction xs as [|x xs IH]; intros s; [done|].
  cbn [mbind list_bind for_each]. rewrite for_each_app.
  destruct (for_each (f x) body s) as [s'|e]; simpl; [apply IH|done].
Qed.

(** A loop whose body only appends to the accumulator collects what the
    iterations contribute, and raises as soon as one of them does. *)
Lemma for_each_collect {A R} (xs : list A) (g : A → result (list R))
    (body : A → list R → result (list R)) (acc : list R) :
  (∀ x acc, body x acc = rs ← g x; Ok (acc ++ rs)) →
  for_each xs body acc = rss ← mapM g xs; Ok (acc ++ concat rss).
Proof.
  intros Hbody. revert acc. induction xs as [|x xs IH]; intros acc; simpl.
  - by rewrite app_nil_r.
  - rewrite Hbody. destruct (g x) as [rs|e]; simpl; [|done].
    rewrite IH. destruct (mapM g xs) as [rss|e]; simpl; [|done].
    by rewrite app_assoc.
Qed.

Section mapM_result.
Context {A B : Type} (g : A → result B).

Lemma mapM_Ok_Forall2 xs rs :
  mapM g xs = Ok rs ↔ Forall2 (λ x r, g x = Ok r) xs rs.
Proof.
  revert rs. induction xs as [|x xs IH]; intros rs; simpl.
  - split; [intros [= <-]; constructor|by inversion 1].
  - split.
    + destruct (g x) as [r|e] eqn:Hx; simpl; [|done].
      destruct (mapM g xs) as [rs'|e]; simpl; [|done].
      intros [= <-]. constructor; [done|]. by apply IH.
    + inversion 1 as [|? r ? rs' Hr Hrs]; subst.
      apply IH in Hrs. by rewrite Hr, Hrs.
Qed.

Lemma mapM_all_Ok xs :
  (∀ x, x ∈ xs → is_Ok (g x)) → is_Ok (mapM g xs).
Proof.
  induction xs as [|x xs IH]; intros Hall; simpl; [by eexists|].
  destruct (Hall x) as [r ->]; [left|]. simpl.
  destruct IH as [rs ->]; [intros y Hy; apply Hall; by right|].
  by eexists.
Qed.

Lemma mapM_raises xs x :
  x ∈ xs → raises (g x) → raises (mapM g xs).
Proof.
  induction xs as [|y xs IH]; intros Hin [e He]; [by apply elem_of_nil in Hin|].
  simpl. destruct (g y) as [r|e'] eqn:Hy; simpl; [|by eexists].
  apply elem_of_cons in Hin as [->|Hin]; [congruence|].
  destruct IH as [e'' ->]; [done|by eexists|]. by eexists.
Qed.

Lemma mapM_first_raise pre x post e :
  (∀ y, y ∈ pre → is_Ok (g y)) → g x = Raise e →
  mapM g (pre ++ x :: post) = Raise e.
Proof.
  induction pre as [|y pre IH]; intros Hpre Hx; simpl.
  - by rewrite Hx.
  - destruct (Hpre y) as [r ->]; [left|]. simpl.
    rewrite IH; [done| |done]. intros z Hz. apply Hpre. by right.
Qed.

End mapM_result.

(** * Proofs: the sampled power analysis *)

Section power_curve_facts.
Import PowerCurve.
#[local] Open Scope Q_scope.

Lemma py_div_Ok a b : (0 < b)%nat → is_Ok (py_div a b).
Proof. destruct b; [lia|]. by eexists. Qed.

Lemma py_div_range a b p : py_div a b = Ok p → (a ≤ b)%nat → 0 <= p <= 1.
Proof.
  destruct b as [|b]; [done|]. intros [= <-] Hab.
  unfold Qle; simpl. lia.
Qed.

Lemma length_filter_le {A} (f : A → bool) (l : list A) :
  (length (List.filter f l) ≤ length l)%nat.
Proof. induction l as [|x l IH]; simpl; [done|]. destruct (f x); simpl; lia. Qed.

(** With at most one match for every left row, the left merge has one row for
    each row of the left table, in order. *)
Lemma merge_left_one_to_one mem meq :
  join_cardinality mem meq →
  Forall2 (λ l m, SNP m = mem_tx l ∧ gene m = mem_gene l ∧ de_pval m = mem_de_pval l
                  ∧ p_value m = (head (matches l meq) ≫= meq_p_value))
          mem (merge_left mem meq).
Proof.
  unfold join_cardinality, merge_left.
  induction 1 as [|l mem Hl Hcard IH]; cbn [flat_map]; [constructor|].
  unfold join_rows at 1.
  destruct (matches l meq) as [|r [|r' ms]] eqn:Hm; simpl in Hl; [| |lia].
  all: simpl; constructor; [by rewrite Hm|done].
Qed.

Lemma merge_left_length mem meq :
  join_cardinality mem meq → length (merge_left mem meq) = length mem.
Proof. intros H. symmetry. eapply Forall2_length, merge_left_one_to_one, H. Qed.

(** The left merge never has fewer rows than the left table. *)
Lemma merge_left_length_ge mem meq : (length mem ≤ length (merge_left mem meq))%nat.
Proof.
  unfold merge_left. induction mem as [|l mem IH]; cbn [flat_map]; [done|].
  rewrite length_app. unfold join_rows at 1.
  destruct (matches l meq); cbn [length map]; lia.
Qed.

Lemma power_memento_range mem p : power_memento mem = Ok p → 0 <= p <= 1.
Proof. intros H. eapply py_div_range; [exact H|]. apply length_filter_le. Qed.

Lemma power_pseudobulk_range mem meq p :
  join_cardinality mem meq → power_pseudobulk mem meq = Ok p → 0 <= p <= 1.
Proof.
  intros Hcard H. eapply py_div_range; [exact H|].
  rewrite <-(merge_left_length mem meq Hcard). apply length_filter_le.
Qed.

(** Both divisions are by the number of rows of [mem]: they succeed exactly
    when the memento table has a row. *)
Lemma powers_defined mem meq :
  mem ≠ [] → is_Ok (power_pseudobulk mem meq) ∧ is_Ok (power_memento mem).
Proof.
  intros Hne. split; apply py_div_Ok; destruct mem; simpl; (done || lia).
Qed.

Lemma powers_empty meq :
  power_pseudobulk [] meq = Raise ZeroDivisionError
  ∧ power_memento [] = Raise ZeroDivisionError.
Proof. done. Qed.

Lemma body_records_of fs pop num_ind resample ct acc :
  body fs pop num_ind resample ct acc
  = rs ← records_of fs (pop, num_ind, resample, ct); Ok (acc ++ rs).
Proof.
  unfold body, records_of.
  destruct (read_csv (meq_files fs) _) as [meq|e]; simpl; [|done].
  destruct (read_csv (mem_files fs) _) as [mem|e]; simpl; [|done].
  destruct (power_pseudobulk mem meq) as [p|e]; simpl; [|done].
  destruct (power_memento mem) as [q|e]; simpl; [|done].
  by rewrite <-app_assoc.
Qed.

(** The four nested loops visit [conditions] in order and collect the records
    of each. *)
Lemma power_curve_flat fs pops nis nr cts :
  power_curve fs pops nis nr cts
  = rss ← mapM (records_of fs) (conditions pops nis nr cts); Ok (concat rss).
Proof.
  rewrite <-(for_each_collect _ _
    (λ c, let '(pop, num_ind, resample, ct) := c in body fs pop num_ind resample ct) []).
  - unfold power_curve, conditions. rewrite for_each_bind.
    apply for_each_ext; intros pop s _. rewrite for_each_bind.
    apply for_each_ext; intros num_ind s' _. rewrite for_each_bind.
    apply for_each_ext; intros resample s'' _. rewrite for_each_bind.
    apply for_each_ext; intros ct s''' _. by rewrite for_each_singleton.
  - intros [[[pop num_ind] resample] ct] acc. apply body_records_of.
Qed.

Lemma elem_of_conditions pops nis nr cts pop num_ind resample ct :
  (pop, num_ind, resample, ct) ∈ conditions pops nis nr cts
  ↔ pop ∈ pops ∧ num_ind ∈ nis ∧ (resample < nr)%nat ∧ ct ∈ cts.
Proof.
  unfold conditions. rewrite list_elem_of_bind. split.
  - intros (pop' & H & Hpop). apply list_elem_of_bind in H as (ni' & H & Hni).
    apply list_elem_of_bind in H as (r' & H & Hr).
    apply list_elem_of_bind in H as (ct' & H & Hct).
    apply list_elem_of_singleton in H as [= -> -> -> ->].
    apply elem_of_seq in Hr. repeat split; (done || lia).
  - intros (Hpop & Hni & Hr & Hct). exists pop. split; [|done].
    apply list_elem_of_bind. exists num_ind. split; [|done].
    apply list_elem_of_bind. exists resample. split; [|apply elem_of_seq; lia].
    apply list_elem_of_bind. exists ct. split; [|done].
    by apply list_elem_of_singleton.
Qed.

Lemma length_bind_const {A B} (f : A → list B) (l : list A) (k : nat) :
  (∀ x, length (f x) = k) → length (x ← l; f x) = (length l * k)%nat.
Proof.
  intros Hf. induction l as [|x l IH]; [done|].
  change (length (f x ++ (y ← l; f y)) = (k + length l * k)%nat).
  by rewrite length_app, Hf, IH.
Qed.

Lemma length_conditions pops nis nr cts :
  length (conditions pops nis nr cts)
  = (length pops * length nis * nr * length cts)%nat.
Proof.
  unfold conditions.
  rewrite (length_bind_const _ pops (length nis * nr * length cts)%nat); [lia|].
  intros pop. rewrite (length_bind_const _ nis (nr * length cts)%nat); [lia|].
  intros ni. rewrite (length_bind_const _ (seq 0 nr) (length cts));
    [by rewrite length_seq|].
  intros r. rewrite (length_bind_const _ cts 1%nat); [lia|done].
Qed.

Lemma records_of_inv fs pop num_ind resample ct rs :
  records_of fs (pop, num_ind, resample, ct) = Ok rs →
  ∃ meq mem p q,
    meq_files fs !! meq_path pop ct num_ind resample = Some meq
    ∧ mem_files fs !! mem_path pop ct num_ind resample = Some mem
    ∧ power_pseudobulk mem meq = Ok p ∧ power_memento mem = Ok q
    ∧ rs = [Build_record pop num_ind resample ct "Pseudobulk" p;
            Build_record pop num_ind resample ct "memento" q].
Proof.
  unfold records_of, read_csv.
  destruct (meq_files fs !! _) as [meq|]; simpl; [|done].
  destruct (mem_files fs !! _) as [mem|]; simpl; [|done].
  destruct (power_pseudobulk mem meq) as [p|e] eqn:Hp; simpl; [|done].
  destruct (power_memento mem) as [q|e] eqn:Hq; simpl; [|done].
  intros [= <-]. by exists meq, mem, p, q.
Qed.

Lemma records_of_Ok fs pop num_ind resample ct meq mem :
  meq_files fs !! meq_path pop ct num_ind resample = Some meq →
  mem_files fs !! mem_path pop ct num_ind resample = Some mem →
  mem ≠ [] →
  ∃ p q, records_of fs (pop, num_ind, resample, ct)
         = Ok [Build_record pop num_ind resample ct "Pseudobulk" p;
               Build_record pop num_ind resample ct "memento" q].
Proof.
  intros Hmeq Hmem Hne. unfold records_of, read_csv. rewrite Hmeq, Hmem. simpl.
  destruct (powers_defined mem meq Hne) as [[p ->] [q ->]]. by exists p, q.
Qed.

(** A missing file makes the records of its condition raise the error of the
    first failing read. *)
Lemma records_of_missing fs pop num_ind resample ct :
  meq_files fs !! meq_path pop ct num_ind resample = None
  ∨ mem_files fs !! mem_path pop ct num_ind resample = None →
  ∃ path, records_of fs (pop, num_ind, resample, ct) = Raise (FileNotFoundError path)
    ∧ (path = meq_path pop ct num_ind resample
       ∧ meq_files fs !! meq_path pop ct num_ind resample = None
       ∨ path = mem_path pop ct num_ind resample
         ∧ mem_files fs !! mem_path pop ct num_ind resample = None).
Proof.
  unfold records_of, read_csv. intros Hmiss.
  destruct (meq_files fs !! _) as [meq|] eqn:Hmeq; simpl.
  - destruct Hmiss as [|Hmem]; [done|]. rewrite Hmem. simpl. eauto.
  - eauto.
Qed.

(** The table, when there is one, is made of the records of the conditions. *)
Lemma power_curve_Ok_inv fs pops nis nr cts table :
  power_curve fs pops nis nr cts = Ok table →
  ∃ rss, Forall2 (λ c rs, records_of fs c = Ok rs) (conditions pops nis nr cts) rss
         ∧ table = concat rss.
Proof.
  rewrite power_curve_flat.
  destruct (mapM _ _) as [rss|e] eqn:HmapM; simpl; [|done].
  intros [= <-]. exists rss. split; [|done]. by apply mapM_Ok_Forall2.
Qed.

Lemma elem_of_table fs pops nis nr cts table r :
  power_curve fs pops nis nr cts = Ok table → r ∈ table →
  ∃ c rs, c ∈ conditions pops nis nr cts ∧ records_of fs c = Ok rs ∧ r ∈ rs.
Proof.
  intros (rss & Hrss & ->)%power_curve_Ok_inv Hr.
  apply list_elem_of_In, in_concat in Hr as (rs & Hrs%list_elem_of_In & Hr%list_elem_of_In).
  apply list_elem_of_lookup in Hrs as [i Hi].
  destruct (Forall2_lookup_r _ _ _ _ _ Hrss Hi) as (c & Hc & Hok).
  exists c, rs. split_and!; [|done..]. apply list_elem_of_lookup. eauto.
Qed.

End power_curve_facts.

Section power_curve_claims.
Import PowerCurve.

Lemma records_labels fs cs rss :
  Forall2 (λ c rs, records_of fs c = Ok rs) cs rss →
  map label_of (concat rss) = flat_map labels_of_condition cs.
Proof.
  induction 1 as [|[[[pop ni] r] ct] rs cs rss Hrs _ IH]; [done|].
  apply records_of_inv in Hrs as (meq & mem & p & q & _ & _ & _ & _ & ->).
  cbn [concat flat_map]. rewrite map_app, IH. done.
Qed.

Lemma length_labels (cs : list condition) :
  length (flat_map labels_of_condition cs) = 2 * length cs.
Proof.
  induction cs as [|[[[pop ni] r] ct] cs IH]; [done|].
  cbn [flat_map]. rewrite length_app, IH. simpl. lia.
Qed.

(** C1.  Every record of the result table holds the power its condition's
    tables give for its method (the number of tests below 0.05 over the
    number of rows of the memento table), and that value lies in [0, 1]: for
    a 'memento' record always, for a 'Pseudobulk' record when the two tables
    satisfy the join cardinality invariant (every (SNP, gene) pair of the
    memento table has at most one matching row in the Matrix eQTL table). *)
Theorem power_in_unit_interval fs pops nis nr cts table r :
  power_curve fs pops nis nr cts = Ok table →
  r ∈ table →
  (method r = "Pseudobulk" → join_cardinality_at fs (condition_of r)) →
  (∃ meq mem,
     meq_files fs !! meq_path (pop r) (ct r) (num_ind r) (resample r) = Some meq
     ∧ mem_files fs !! mem_path (pop r) (ct r) (num_ind r) (resample r) = Some mem
     ∧ (method r = "Pseudobulk" ∧ power_pseudobulk mem meq = Ok (power r)
        ∨ method r = "memento" ∧ power_memento mem = Ok (power r)))
  ∧ (0 <= power r <= 1)%Q.
Proof.
  intros Htable Hr Hcard.
  destruct (elem_of_table _ _ _ _ _ _ _ Htable Hr)
    as ([[[pop ni] rs] ct] & recs & _ & Hrecs & Hin).
  apply records_of_inv in Hrecs as (meq & mem & p & q & Hmeq & Hmem & Hp & Hq & ->).
  apply elem_of_cons in Hin as [->|Hin].
  - simpl in *. split; [exists meq, mem; by eauto|].
    eapply power_pseudobulk_range; [|exact Hp]. by apply Hcard.
  - apply list_elem_of_singleton in Hin as ->. simpl.
    split; [exists meq, mem; by eauto|]. eapply power_memento_range, Hq.
Qed.

Lemma power_in_unit_interval_witness :
  let table := [Build_record "asian" 50 0 "B" "Pseudobulk" (1 # 3);
                Build_record "asian" 50 0 "B" "memento" (2 # 3)] in
  power_curve example_fs ["asian"] [50] 1 ["B"] = Ok table
  ∧ (0 <= 1 # 3 <= 1)%Q.
Proof.
  intros table.
  assert (power_curve example_fs ["asian"] [50] 1 ["B"] = Ok table) as Htable
    by (vm_compute; reflexivity).
  split; [exact Htable|].
  apply (power_in_unit_interval example_fs ["asian"] [50] 1 ["B"] table
           (Build_record "asian" 50 0 "B" "Pseudobulk" (1 # 3)) Htable).
  - left.
  - intros _ meq mem Hmeq Hmem. vm_compute in Hmeq, Hmem.
    injection Hmeq as <-. injection Hmem as <-.
    repeat constructor.
Defined.

(** C2, as the code has it.  The notebook does not check the tables it
    merges.  When every (SNP, gene) pair of the memento table has at most one
    matching row in the Matrix eQTL table, the left merge has exactly one row
    for each memento row, in the same order and with that row's values, and as
    many rows as the memento table. *)
Theorem merge_left_row_count mem meq :
  join_cardinality mem meq →
  length (merge_left mem meq) = length mem
  ∧ Forall2 (λ l m, SNP m = mem_tx l ∧ gene m = mem_gene l
                    ∧ de_pval m = mem_de_pval l
                    ∧ p_value m = (head (matches l meq) ≫= meq_p_value))
            mem (merge_left mem meq).
Proof.
  intros Hcard. split; [by apply merge_left_length|by apply merge_left_one_to_one].
Qed.

Lemma merge_left_row_count_witness :
  length (merge_left example_mem example_meq) = 3
  ∧ map p_value (merge_left example_mem example_meq) = [Some (1 # 100); Some (1 # 2); None].
Proof.
  assert (join_cardinality example_mem example_meq) as Hcard by (repeat constructor).
  destruct (merge_left_row_count example_mem example_meq Hcard) as [Hlen _].
  split; [exact Hlen|reflexivity].
Defined.

(** C2 fails as stated: a Matrix eQTL table that lists one pair twice is
    read and merged like any other.  The merged table then has more rows than
    the memento table, and the loop completes with a 'Pseudobulk' power
    of 2. *)
Lemma merge_left_duplicated_pair :
  meq_files duplicated_fs !! meq_path "asian" "B" 50 0 = Some duplicated_meq
  ∧ mem_files duplicated_fs !! mem_path "asian" "B" 50 0 = Some single_mem
  ∧ ¬ join_cardinality single_mem duplicated_meq
  ∧ length (merge_left single_mem duplicated_meq) = 2
  ∧ length single_mem = 1
  ∧ power_curve duplicated_fs ["asian"] [50] 1 ["B"]
    = Ok [Build_record "asian" 50 0 "B" "Pseudobulk" (2 # 1);
          Build_record "asian" 50 0 "B" "memento" (1 # 1)].
Proof.
  split_and!; try (vm_compute; reflexivity).
  intros Hcard. apply Forall_cons in Hcard as [Hcard _].
  vm_compute in Hcard. lia.
Qed.

(** C7, as the code has it.  When, for every condition, both files are read
    and the memento table has at least one row, the computation produces a
    result table whose records are labelled, in order, by the conditions of
    the Cartesian product, 'Pseudobulk' then 'memento' for each: it has
    2 x |populations| x |individual counts| x num_resample x |cell types|
    rows. *)
Theorem power_curve_table fs pops nis nr cts :
  (∀ pop ni r ct, pop ∈ pops → ni ∈ nis → r < nr → ct ∈ cts →
     ∃ meq mem, meq_files fs !! meq_path pop ct ni r = Some meq
                ∧ mem_files fs !! mem_path pop ct ni r = Some mem
                ∧ mem ≠ []) →
  ∃ table, power_curve fs pops nis nr cts = Ok table
    ∧ map label_of table = flat_map labels_of_condition (conditions pops nis nr cts)
    ∧ length table = 2 * (length pops * length nis * nr * length cts).
Proof.
  intros Hfiles. rewrite power_curve_flat.
  destruct (mapM_all_Ok (records_of fs) (conditions pops nis nr cts)) as [rss Hrss].
  { intros [[[pop ni] r] ct] (Hpop & Hni & Hr & Hct)%elem_of_conditions.
    destruct (Hfiles pop ni r ct) as (meq & mem & Hmeq & Hmem & Hne); [done..|].
    destruct (records_of_Ok _ _ _ _ _ _ _ Hmeq Hmem Hne) as (p & q & ->).
    by eexists. }
  rewrite Hrss. simpl. eexists. split; [reflexivity|].
  apply mapM_Ok_Forall2 in Hrss.
  assert (map label_of (concat rss)
          = flat_map labels_of_condition (conditions pops nis nr cts)) as Hlabels
    by (by eapply records_labels).
  split; [done|].
  rewrite <-(length_map label_of), Hlabels, length_labels, length_conditions. done.
Qed.

Lemma power_curve_table_witness :
  ∃ table, power_curve example_fs ["asian"] [50] 2 ["B"; "T4"] = Ok table
    ∧ map label_of table
      = [("asian", 50, 0, "B", "Pseudobulk"); ("asian", 50, 0, "B", "memento");
         ("asian", 50, 0, "T4", "Pseudobulk"); ("asian", 50, 0, "T4", "memento");
         ("asian", 50, 1, "B", "Pseudobulk"); ("asian", 50, 1, "B", "memento");
         ("asian", 50, 1, "T4", "Pseudobulk"); ("asian", 50, 1, "T4", "memento")]
    ∧ length table = 8.
Proof.
  apply (power_curve_table example_fs ["asian"] [50] 2 ["B"; "T4"]).
  intros pop ni r ct Hpop Hni Hr Hct. exists example_meq, example_mem.
  apply list_elem_of_singleton in Hpop as ->.
  apply list_elem_of_singleton in Hni as ->.
  assert (r = 0 ∨ r = 1) as [-> | ->] by lia;
    (apply elem_of_cons in Hct as [-> | ->%list_elem_of_singleton]);
    split_and!; (reflexivity || discriminate).
Defined.

(** C7 fails as stated: with every file of the notebook's run present and
    read, a memento table without rows makes the division by its row count
    raise, and no table is produced. *)
Lemma power_curve_empty_table_raises :
  Forall (λ '(pop, ni, r, ct),
            is_Some (meq_files empty_tables_fs !! meq_path pop ct ni r)
            ∧ is_Some (mem_files empty_tables_fs !! mem_path pop ct ni r))
         (conditions ["asian"] num_inds num_resample (drop_duplicates ["B"]))
  ∧ result_df empty_tables_fs ["B"] = Raise ZeroDivisionError.
Proof.
  split; [|vm_compute; reflexivity].
  set (cs := conditions _ _ _ _). vm_compute in cs. subst cs.
  repeat (apply Forall_cons; split;
          [split; [exists example_meq|exists []]; vm_compute; reflexivity|]).
  by apply Forall_nil.
Qed.

(** C8.  The loop handles no error.  If a file of any condition of the run
    is missing, the computation raises and there is no result table; and when
    the conditions before that one are computed, the exception raised is the
    FileNotFoundError of the missing file. *)
Theorem power_curve_read_failure fs pops nis nr cts pop ni r ct :
  pop ∈ pops → ni ∈ nis → r < nr → ct ∈ cts →
  meq_files fs !! meq_path pop ct ni r = None
  ∨ mem_files fs !! mem_path pop ct ni r = None →
  raises (power_curve fs pops nis nr cts)
  ∧ ∀ pre post,
      conditions pops nis nr cts = pre ++ (pop, ni, r, ct) :: post →
      (∀ c, c ∈ pre → is_Ok (records_of fs c)) →
      ∃ path, power_curve fs pops nis nr cts = Raise (FileNotFoundError path)
        ∧ (path = meq_path pop ct ni r ∧ meq_files fs !! meq_path pop ct ni r = None
           ∨ path = mem_path pop ct ni r ∧ mem_files fs !! mem_path pop ct ni r = None).
Proof.
  intros Hpop Hni Hr Hct Hmiss.
  destruct (records_of_missing fs pop ni r ct Hmiss) as (path & Hraise & Hpath).
  split.
  - rewrite power_curve_flat. destruct (mapM_raises (records_of fs) (conditions pops nis nr cts) (pop, ni, r, ct))
      as [e ->]; [by apply elem_of_conditions|by eexists|by eexists].
  - intros pre post Hcs Hpre. exists path. split; [|done].
    by rewrite power_curve_flat, Hcs, (mapM_first_raise _ pre _ post _ Hpre Hraise).
Qed.

Lemma power_curve_read_failure_witness :
  mem_files missing_file_fs !! mem_path "asian" "T4" 50 1 = None
  ∧ raises (power_curve missing_file_fs ["asian"] [50] 2 ["B"; "T4"]).
Proof.
  assert (mem_files missing_file_fs !! mem_path "asian" "T4" 50 1 = None) as Hmiss
    by (vm_compute; reflexivity).
  split; [exact Hmiss|].
  apply (power_curve_read_failure missing_file_fs ["asian"] [50] 2 ["B"; "T4"]
           "asian" 50 1 "T4").
  - left.
  - left.
  - lia.
  - right; left.
  - right; exact Hmiss.
Defined.

End power_curve_claims.

(** * Proofs: [drop_zero_col] *)

Section drop_zero_col_facts.
Import Pandas.

Lemma ne_zero_nonzero x : ne_zero x = true ↔ nonzero x.
Proof.
  destruct x as [q|]; simpl; [|done].
  rewrite negb_true_iff, <-not_true_iff_false, Qeq_bool_iff. done.
Qed.

Lemma existsb_ne_zero c : existsb ne_zero c.2 = true ↔ has_nonzero c.
Proof.
  unfold has_nonzero. rewrite existsb_exists, Exists_exists.
  split; intros (x & Hx & Hnz); exists x.
  - split; [by apply list_elem_of_In|by apply ne_zero_nonzero].
  - split; [by apply list_elem_of_In|by apply ne_zero_nonzero].
Qed.

(** Selecting by the mask of a test is filtering by the test. *)
Lemma select_by_mask_filter {A} (f : A → bool) (P : A → Prop)
    `{!∀ x, Decision (P x)} (l : list A) :
  (∀ x, f x = true ↔ P x) →
  select_by_mask (map f l) l = filter P l.
Proof.
  intros HfP. induction l as [|x l IH]; [done|]. simpl.
  rewrite filter_cons. destruct (f x) eqn:Hfx.
  - rewrite decide_True by (by apply HfP). by rewrite IH.
  - rewrite decide_False; [done|]. rewrite <-HfP. congruence.
Qed.

Lemma alloc_spec (d : DataFrame) (h : heap) :
  ∃ l, alloc d h = Some (l, <[l := d]> h) ∧ h !! l = None.
Proof.
  exists (fresh (dom h)). split; [done|].
  apply not_elem_of_dom, is_fresh.
Qed.

(** C9.  [drop_zero_col(df)] returns a new object whose rows are those of
    [df] and whose columns are exactly the columns of [df] that have an entry
    different from zero, in their order; [df] and every other object that
    existed before the call are left as they were. *)
Theorem drop_zero_col_spec (h : heap) (df : ref) (d : DataFrame) :
  h !! df = Some d →
  ∃ (l : ref) (h' : heap) (d' : DataFrame),
    drop_zero_col df h = Some (l, h')
    ∧ h !! l = None
    ∧ h' !! l = Some d'
    ∧ h' !! df = Some d
    ∧ (∀ l0, is_Some (h !! l0) → h' !! l0 = h !! l0)
    ∧ index d' = index d
    ∧ columns d' = filter has_nonzero (columns d)
    ∧ (∀ c, c ∈ columns d' ↔ c ∈ columns d ∧ has_nonzero c).
Proof.
  intros Hdf.
  set (d1 := {| index := index d;
                columns := select_by_mask (any_ne_zero d) (columns d) |}).
  destruct (alloc_spec d1 h) as (l1 & Hl1 & Hfresh1).
  destruct (alloc_spec d1 (<[l1 := d1]> h)) as (l2 & Hl2 & Hfresh2).
  exists l2, (<[l2 := d1]> (<[l1 := d1]> h)), d1.
  assert (l2 ≠ l1) as Hne21.
  { intros ->. by rewrite lookup_insert_eq in Hfresh2. }
  assert (h !! l2 = None) as Hfresh.
  { by rewrite lookup_insert_ne in Hfresh2. }
  assert (∀ l0, is_Some (h !! l0) →
            <[l2 := d1]> (<[l1 := d1]> h) !! l0 = h !! l0) as Hframe.
  { intros l0 [d0 Hd0]. rewrite !lookup_insert_ne; [done|congruence..]. }
  assert (columns d1 = filter has_nonzero (columns d)) as Hcols.
  { apply select_by_mask_filter. apply existsb_ne_zero. }
  split_and!; try done.
  - unfold drop_zero_col, loc_columns, copy, load, mbind, prog_bind.
    rewrite Hdf. cbn beta iota. rewrite Hdf. cbn beta iota. fold d1.
    rewrite Hl1, lookup_insert_eq. exact Hl2.
  - by rewrite lookup_insert_eq.
  - rewrite Hframe; [done|by eexists].
  - intros c. rewrite Hcols, list_elem_of_filter. tauto.
Qed.

Lemma drop_zero_col_spec_witness :
  ∃ l h' d', drop_zero_col 1%positive example_heap = Some (l, h')
    ∧ h' !! l = Some d'
    ∧ h' !! 1%positive = Some example_df
    ∧ index d' = ["ind1"; "ind2"]
    ∧ columns d' = [("rs1", [Num 0; Num 1]); ("rs3", [NaN; Num 0])].
Proof.
  destruct (drop_zero_col_spec example_heap 1%positive example_df)
    as (l & h' & d' & Hrun & _ & Hl & Hdf & _ & Hindex & Hcols & _).
  - reflexivity.
  - exists l, h', d'. split_and!; [exact Hrun|exact Hl|exact Hdf|exact Hindex|].
    rewrite Hcols. reflexivity.
Defined.

End drop_zero_col_facts.

(** * Proofs: the generation of simulation data *)

Section simulation_facts.
Import Simulation.

(** Selecting by the mask of a test on the positions keeps the elements at
    the positions that pass the test. *)
Lemma select_by_mask_seq {A} (f : nat → bool) (d : A) (l : list A) (s : nat) :
  select_by_mask (map f (seq s (length l))) l
  = map (λ j, nth (j - s) l d) (List.filter f (seq s (length l))).
Proof.
  revert s. induction l as [|x l IH]; intros s; [done|].
  cbn [length seq map select_by_mask List.filter].
  assert (map (λ j, nth (j - s) (x :: l) d) (List.filter f (seq (S s) (length l)))
          = map (λ j, nth (j - S s) l d) (List.filter f (seq (S s) (length l)))) as Hshift.
  { apply map_ext_in. intros j [Hj _]%filter_In. apply in_seq in Hj.
    replace (j - s) with (S (j - S s)) by lia. done. }
  destruct (f s); cbn [map]; rewrite ?Hshift, <-IH; [|done].
  by rewrite Nat.sub_diag.
Qed.

Lemma select_by_mask_positions {A} (f : nat → bool) (d : A) (l : list A) (n : nat) :
  length l = n →
  select_by_mask (map f (seq 0 n)) l = map (λ j, nth j l d) (List.filter f (seq 0 n)).
Proof.
  intros <-. rewrite (select_by_mask_seq f d). apply map_ext. intros j.
  by rewrite Nat.sub_0_r.
Qed.

Lemma elem_of_kept_vars adata j :
  j ∈ kept_vars adata ↔ j < n_vars adata ∧ gt_2_5 (column_mean adata j) = true.
Proof.
  unfold kept_vars. rewrite list_elem_of_In, filter_In, in_seq. intuition lia.
Qed.

Lemma getitem_all {A} (l : list A) (idx : list nat) :
  Forall (λ i, i < length l) idx →
  ∃ xs, mapM (getitem l) idx = Ok xs ∧ length xs = length idx.
Proof.
  intros His.
  destruct (mapM_all_Ok (getitem l) idx) as [xs Hxs].
  { intros i Hi. rewrite Forall_forall in His.
    destruct (lookup_lt_is_Some_2 l i (His i Hi)) as [x Hx].
    exists x. unfold getitem. by rewrite Hx. }
  exists xs. split; [done|].
  apply mapM_Ok_Forall2, Forall2_length in Hxs. done.
Qed.

Lemma getitem_rows {A} (P : A → Prop) (l : list A) (idx : list nat) xs :
  Forall P l → mapM (getitem l) idx = Ok xs → Forall P xs.
Proof.
  intros Hl Hxs%mapM_Ok_Forall2. induction Hxs as [|i x idx xs Hx _ IH]; [done|].
  constructor; [|done]. unfold getitem in Hx.
  destruct (l !! i) as [y|] eqn:Hy; [|done]. injection Hx as <-.
  rewrite Forall_forall in Hl. apply Hl. by eapply list_elem_of_lookup_2.
Qed.

End simulation_facts.

Section simulation_claims.
Import Simulation.


(** Without a cell there is no mean to compare: the filter raises. *)
Lemma gene_filter_no_cells (subset : AnnData) :
  n_obs subset = 0 → gene_filter subset = Raise ZeroDivisionError.
Proof. intros Hobs. unfold gene_filter, mean_axis0. by rewrite Hobs. Qed.



(** C6.  Subsampling a matrix that has at least [new_n_obs] rows to
    [new_n_obs] cells, whatever permutation the generator draws, yields a
    matrix with exactly [new_n_obs] rows (and names for them) over the same
    genes. *)
Theorem subsample_n_obs (perm : list nat) (data : AnnData) (new_n_obs : nat) :
  well_formed data →
  perm ≡ₚ seq 0 (n_obs data) →
  new_n_obs ≤ n_obs data →
  ∃ sample, subsample perm data new_n_obs = Ok sample
    ∧ length (X sample) = new_n_obs
    ∧ n_obs sample = new_n_obs
    ∧ var_names sample = var_names data
    ∧ well_formed sample.
Proof.
  intros [Hrows Hcols] Hperm Hle. unfold subsample, random_choice.
  rewrite decide_True by done. simpl.
  assert (length (take new_n_obs perm) = new_n_obs) as Hlen.
  { rewrite length_take, Hperm, length_seq. lia. }
  assert (Forall (λ i, i < n_obs data) (take new_n_obs perm)) as Hrange.
  { apply Forall_forall. intros i (k & Hk%list_elem_of_lookup_2 & _)%elem_of_take.
    rewrite Hperm in Hk. apply elem_of_seq in Hk. lia. }
  destruct (getitem_all (obs_names data) (take new_n_obs perm)) as (names & Hnames & Hn);
    [done|].
  destruct (getitem_all (X data) (take new_n_obs perm)) as (rows & Hrws & Hr);
    [by rewrite Hrows|].
  unfold index_obs. rewrite Hnames. simpl. rewrite Hrws. simpl.
  eexists. split; [reflexivity|]. unfold well_formed, n_obs, n_vars. simpl.
  split_and!; [congruence|congruence|done|congruence|].
  by eapply getitem_rows.
Qed.

Lemma subsample_n_obs_witness :
  ∃ sample, subsample [2; 0; 3; 1] example_adata 2 = Ok sample
    ∧ length (X sample) = 2.
Proof.
  destruct (subsample_n_obs [2; 0; 3; 1] example_adata 2)
    as (sample & Hrun & Hlen & _).
  - split; [reflexivity|]. repeat constructor.
  - apply (Permutation_trans (perm_swap 0 2 [3; 1])).
    apply perm_skip. apply (Permutation_trans (perm_skip 2 (perm_swap 1 3 []))).
    apply perm_swap.
  - vm_compute. lia.
  - exists sample. split; [exact Hrun|exact Hlen].
Defined.

(** Asking for more cells than the matrix has raises numpy's ValueError. *)
Lemma subsample_too_many perm data new_n_obs :
  n_obs data < new_n_obs → subsample perm data new_n_obs = Raise ValueError.
Proof.
  intros Hlt. unfold subsample, random_choice. by rewrite decide_False by lia.
Qed.

End simulation_claims.

(** * Proofs: the SAVER comparison *)

Section size_factor_facts.
Import Saver.
#[local] Open Scope Q_scope.









End size_factor_facts.

Section saver_loop_facts.
Import Saver.

(** A loop that assigns [g i] to position [i] of a vector, for each position
    in turn: after the first [k] positions, and at the end. *)
Lemma for_each_assign_prefix {A} (k : nat) (g : nat → A)
    (body : nat → list A → result (list A)) (init : list A) :
  k ≤ length init →
  (∀ i acc, i < k → body i acc = Ok (<[i := g i]> acc)) →
  for_each (seq 0 k) body init = Ok (map g (seq 0 k) ++ drop k init).
Proof.
  induction k as [|k IH]; intros Hk Hbody; [done|].
  rewrite seq_S, for_each_app, IH by (intros; (lia || apply Hbody; lia)). simpl.
  rewrite Hbody by lia. simpl. f_equal.
  destruct (lookup_lt_is_Some_2 init k) as [x Hx]; [lia|].
  rewrite (drop_S _ _ _ Hx), map_app, <-app_assoc. simpl.
  rewrite insert_app_r_alt by (rewrite length_map, length_seq; lia).
  rewrite length_map, length_seq, Nat.sub_diag. done.
Qed.

Lemma for_each_assign {A} (n : nat) (g : nat → A)
    (body : nat → list A → result (list A)) (init : list A) :
  length init = n →
  (∀ i acc, i < n → body i acc = Ok (<[i := g i]> acc)) →
  for_each (seq 0 n) body init = Ok (map g (seq 0 n)).
Proof.
  intros Hlen Hbody. rewrite (for_each_assign_prefix n g) by (done || lia).
  rewrite drop_ge by lia. by rewrite app_nil_r.
Qed.

Lemma adj_vec_Ok n estimate se sf :
  length estimate = n → length se = n →
  adj_vec n estimate se sf
  = Ok (map (λ i, adj_entry (default [] (estimate !! i)) (default [] (se !! i)) sf)
            (seq 0 n)).
Proof.
  intros Hest Hse. unfold adj_vec. apply for_each_assign.
  - apply length_replicate.
  - intros i acc Hi. unfold row.
    destruct (lookup_lt_is_Some_2 estimate i) as [e ->]; [lia|].
    destruct (lookup_lt_is_Some_2 se i) as [s ->]; [lia|]. done.
Qed.

(** The loop runs over the [n] written in the notebook: with estimates of
    fewer genes it stops at the first row that does not exist. *)
Lemma adj_vec_out_of_bounds n estimate se sf :
  length estimate < n → length estimate ≤ length se →
  adj_vec n estimate se sf = Raise SubscriptOutOfBounds.
Proof.
  intros Hlt Hse. unfold adj_vec.
  replace n with (length estimate + S (n - S (length estimate))) at 1 by lia.
  rewrite seq_app, for_each_app.
  rewrite (for_each_assign_prefix (length estimate)
    (λ i, adj_entry (default [] (estimate !! i)) (default [] (se !! i)) sf)).
  - cbn [seq for_each mbind result_bind plus]. unfold row.
    by rewrite (lookup_ge_None_2 estimate (length estimate)) by lia.
  - rewrite length_replicate. lia.
  - intros i acc Hi. unfold row.
    destruct (lookup_lt_is_Some_2 estimate i) as [e ->]; [lia|].
    destruct (lookup_lt_is_Some_2 se i) as [s ->]; [lia|]. done.
Qed.

Lemma map_length_const {A B} (f : A → list B) (l : list A) (n : nat) :
  (∀ x, length (f x) = n) → map length (map f l) = replicate (length l) n.
Proof.
  intros Hf. induction l as [|x l IH]; [done|]. simpl. by rewrite Hf, IH.
Qed.

Lemma entry_outer (x y : list num) i j a b :
  x !! i = Some a → y !! j = Some b → entry (outer x y) i j = Some (nmul a b).
Proof.
  intros Hi Hj. unfold entry, outer.
  rewrite list_lookup_fmap, Hi. simpl. by rewrite list_lookup_fmap, Hj.
Qed.

Lemma entry_temp_cor estimate sf i j x y :
  estimate !! i = Some x → estimate !! j = Some y →
  entry (temp_cor estimate sf) i j = Some (cor_entry i j (vmul x sf) (vmul y sf)).
Proof.
  intros Hi Hj. unfold entry, temp_cor.
  rewrite list_lookup_imap, list_lookup_fmap, Hi. simpl.
  by rewrite list_lookup_imap, list_lookup_fmap, Hj.
Qed.

Lemma entry_zip_with (f : num → num → num) (a b : matrix) i j x y :
  entry a i j = Some x → entry b i j = Some y →
  entry (zip_with (zip_with f) a b) i j = Some (f x y).
Proof.
  unfold entry. intros Ha Hb.
  destruct (a !! i) as [ra|] eqn:Hra; [|done].
  destruct (b !! i) as [rb|] eqn:Hrb; [|done]. simpl in *.
  rewrite lookup_zip_with, Hra. simpl. rewrite Hrb. simpl.
  rewrite lookup_zip_with, Ha. simpl. by rewrite Hb.
Qed.

Lemma shape_zip_with (f : num → num → num) (a b : matrix) :
  map length a = map length b →
  map length (zip_with (zip_with f) a b) = map length a.
Proof.
  revert b. induction a as [|x a IH]; intros [|y b]; simpl; try done.
  intros [= Hxy Hab]. rewrite length_zip_with, IH by done. f_equal. lia.
Qed.

Lemma shape_temp_cor estimate sf :
  map length (temp_cor estimate sf) = replicate (length estimate) (length estimate).
Proof.
  unfold temp_cor. apply list_eq. intros i.
  rewrite list_lookup_fmap, list_lookup_imap, list_lookup_fmap.
  destruct (estimate !! i) as [x|] eqn:Hx; simpl.
  - rewrite length_imap, length_map. symmetry. apply lookup_replicate_2.
    by eapply lookup_lt_Some.
  - symmetry. apply lookup_replicate_None. apply lookup_ge_None in Hx. lia.
Qed.

Lemma shape_outer (x : list num) :
  map length (outer x x) = replicate (length x) (length x).
Proof.
  unfold outer. apply map_length_const. intros a. by rewrite length_map.
Qed.

Lemma saver_cor_Ok n estimate se sf adj :
  length estimate = n → adj_vec n estimate se sf = Ok adj → length adj = n →
  saver_cor n estimate se sf
  = Ok (zip_with (zip_with nmul) (temp_cor estimate sf) (outer adj adj)).
Proof.
  intros Hest Hadj Hlen. unfold saver_cor, mat_mul_elementwise. rewrite Hadj. simpl.
  rewrite decide_True; [done|]. rewrite shape_temp_cor, shape_outer. congruence.
Qed.

End saver_loop_facts.

Section saver_numeric_facts.
Import Saver.
#[local] Open Scope R_scope.

Lemma sum_squares_nonneg (c : R) (l : list R) :
  0 <= sum_R (map (λ x, (x - c) ^ 2) l).
Proof.
  unfold sum_R. induction l as [|x l IH]; cbn [map foldr]; [lra|].
  pose proof (pow2_ge_0 (x - c)). lra.
Qed.

Lemma sum_sq_dev_nonneg (l : list R) : 0 <= sum_sq_dev l.
Proof. apply sum_squares_nonneg. Qed.

Lemma mapM_id_na_rm (x : list num) (xs : list R) :
  mapM Datatypes.id x = Some xs → na_rm x = xs.
Proof.
  revert xs. induction x as [|[a|] x IH]; intros xs; simpl; [by intros [= <-]| |done].
  destruct (mapM Datatypes.id x) as [xs'|]; simpl; [|done].
  intros [= <-]. unfold na_rm in *. simpl. by rewrite (IH xs').
Qed.

(** A gene whose correlation with another gene is a number has a variance,
    and it is positive. *)
Lemma pearson_var (x y : list num) (t : R) :
  pearson x y = Some t → ∃ v, var_na_rm x = Some v ∧ 0 < v.
Proof.
  unfold pearson, var_na_rm.
  destruct (mapM Datatypes.id x) as [xs|] eqn:Hxs; simpl; [|done].
  destruct (mapM Datatypes.id y) as [ys|] eqn:Hys; simpl; [|done].
  rewrite (mapM_id_na_rm x xs Hxs).
  destruct (decide (length xs < 2)%nat) as [|Hlen]; [done|].
  destruct (Req_dec_T _ _) as [|Hne]; [done|]. intros _.
  eexists. split; [reflexivity|].
  pose proof (sum_sq_dev_nonneg xs) as Hge.
  assert (0 < sum_sq_dev xs) as Hpos.
  { destruct Hge as [Hlt|Heq]; [exact Hlt|].
    exfalso. apply Hne. rewrite <-Heq. lra. }
  assert (2 <= INR (length xs)) as Hn.
  { change 2 with (INR 2). apply le_INR. lia. }
  apply Rdiv_lt_0_compat; lra.
Qed.

(** The reliability factor of a gene with a nonnegative variance and a
    nonnegative mean squared standard error, not both zero, lies in
    [0, 1]. *)
Lemma adj_entry_unit (estimate_i se_i sf : list num) (v m : R) :
  var_na_rm (vmul estimate_i sf) = Some v → 0 <= v →
  mean_na_rm (vmul (vsq se_i) (vsq sf)) = Some m → 0 <= m →
  0 < v + m →
  ∃ a, adj_entry estimate_i se_i sf = Some a ∧ 0 <= a <= 1.
Proof.
  intros Hv Hvpos Hm Hmpos Hpos. unfold adj_entry. rewrite Hv, Hm. simpl.
  destruct (Req_dec_T (v + m) 0) as [|_]; [lra|]. simpl.
  assert (0 <= v / (v + m) <= 1) as [Hlo Hhi].
  { split.
    - apply Rmult_le_pos; [lra|]. apply Rlt_le, Rinv_0_lt_compat. lra.
    - apply (Rmult_le_reg_r (v + m)); [lra|].
      unfold Rdiv. rewrite Rmult_assoc, Rinv_l; lra. }
  destruct (Rle_dec 0 (v / (v + m))) as [_|]; [|lra].
  eexists. split; [reflexivity|]. split; [apply sqrt_pos|].
  rewrite <-sqrt_1. by apply sqrt_le_1_alt.
Qed.

Lemma scaled_correlation_bounded (t a b : R) :
  -1 <= t <= 1 → 0 <= a <= 1 → 0 <= b <= 1 → -1 <= t * (a * b) <= 1.
Proof.
  intros Ht Ha Hb.
  assert (0 <= a * b <= 1) by nra. nra.
Qed.

(** The correlation matrix and the mean squared standard errors of the test
    data. *)
Lemma example_sum_sq_dev :
  sum_sq_dev [0 * 1; 2 * 1] = 2 ∧ sum_sq_dev [2 * 1; 0 * 1] = 2.
Proof. unfold sum_sq_dev, mean_R, sum_R. simpl. split; field. Qed.

Lemma example_sum_prod_dev :
  sum_prod_dev [0 * 1; 2 * 1] [0 * 1; 2 * 1] = 2
  ∧ sum_prod_dev [0 * 1; 2 * 1] [2 * 1; 0 * 1] = -2
  ∧ sum_prod_dev [2 * 1; 0 * 1] [0 * 1; 2 * 1] = -2
  ∧ sum_prod_dev [2 * 1; 0 * 1] [2 * 1; 0 * 1] = 2.
Proof. unfold sum_prod_dev, mean_R, sum_R. simpl. split_and!; field. Qed.

Lemma example_temp_cor :
  temp_cor example_estimate example_sf = [[Some 1; Some (-1)]; [Some (-1); Some 1]].
Proof.
  destruct example_sum_sq_dev as [Hx Hy].
  destruct example_sum_prod_dev as (Hxx & Hxy & Hyx & Hyy).
  assert (sqrt (2 * 2) = 2) as Hsqrt by (apply sqrt_square; lra).
  unfold temp_cor, cor_entry, pearson. simpl.
  rewrite Hx, Hy, Hxy, Hyx, Hsqrt.
  destruct (Req_dec_T (2 * 2) 0) as [|_]; [lra|].
  repeat f_equal; f_equal; field.
Qed.

Lemma example_terms i estimate_i se_i :
  example_estimate !! i = Some estimate_i → example_se !! i = Some se_i →
  ∃ v m, var_na_rm (vmul estimate_i example_sf) = Some v
         ∧ mean_na_rm (vmul (vsq se_i) (vsq example_sf)) = Some m
         ∧ 0 <= v ∧ 0 <= m ∧ 0 < v + m.
Proof.
  destruct example_sum_sq_dev as [Hx Hy].
  destruct i as [|[|i]]; intros [= <-] [= <-].
  - exists 2, 1. split_and!; [| |lra..].
    + unfold var_na_rm. simpl. rewrite Hx. f_equal. field.
    + unfold mean_na_rm, mean_R, sum_R. simpl. f_equal. field.
  - exists 2, 1. split_and!; [| |lra..].
    + unfold var_na_rm. simpl. rewrite Hy. f_equal. field.
    + unfold mean_na_rm, mean_R, sum_R. simpl. f_equal. field.
Qed.

(** The terms of the gene of [constant_estimate]: its variance and its mean
    squared standard error are zero, so that its reliability factor is
    0 / 0. *)
Lemma constant_gene_terms :
  var_na_rm (vmul [Some 1; Some 1] example_sf) = Some 0
  ∧ mean_na_rm (vmul (vsq [Some 0; Some 0]) (vsq example_sf)) = Some 0
  ∧ adj_entry [Some 1; Some 1] [Some 0; Some 0] example_sf = None.
Proof.
  assert (var_na_rm (vmul [Some 1; Some 1] example_sf) = Some 0) as Hv.
  { unfold var_na_rm, sum_sq_dev, mean_R, sum_R. simpl. f_equal. field. }
  assert (mean_na_rm (vmul (vsq [Some 0; Some 0]) (vsq example_sf)) = Some 0) as Hm.
  { unfold mean_na_rm, mean_R, sum_R. simpl. f_equal. field. }
  split_and!; [exact Hv|exact Hm|].
  unfold adj_entry. rewrite Hv, Hm. simpl.
  destruct (Req_dec_T (0 + 0) 0) as [|Hne]; [done|]. exfalso. apply Hne. lra.
Qed.

End saver_numeric_facts.

Section saver_claims.
Import Saver.

Lemma adj_vec_lookup n estimate se sf :
  length estimate = n → length se = n →
  ∃ adj, adj_vec n estimate se sf = Ok adj ∧ length adj = n
    ∧ ∀ i estimate_i se_i,
        estimate !! i = Some estimate_i → se !! i = Some se_i →
        adj !! i = Some (adj_entry estimate_i se_i sf).
Proof.
  intros Hest Hse. eexists. split; [by apply adj_vec_Ok|].
  split; [by rewrite length_map, length_seq|].
  intros i e s He Hs.
  rewrite list_lookup_fmap, lookup_seq_lt by (apply lookup_lt_Some in He; lia).
  simpl. by rewrite He, Hs.
Qed.

(** An entry of the elementwise product of [temp.cor] and the outer product
    of a vector with itself. *)
Lemma scaled_entry estimate sf (adj : list num) i j x y a b :
  estimate !! i = Some x → estimate !! j = Some y →
  adj !! i = Some a → adj !! j = Some b →
  entry (zip_with (zip_with nmul) (temp_cor estimate sf) (outer adj adj)) i j
  = Some (nmul (cor_entry i j (vmul x sf) (vmul y sf)) (nmul a b)).
Proof.
  intros Hx Hy Ha Hb.
  apply entry_zip_with; [by apply entry_temp_cor|by apply entry_outer].
Qed.

(** C3.  For estimates and standard errors of [n] genes, the loop leaves in
    [adj.vec[i]], for every gene [i],
    sqrt(var(estimate_i * sf) / (var(estimate_i * sf) + mean(se_i^2 * sf^2)))
    (variance and mean over the values that are not missing); [saver.cor] is
    an [n] by [n] matrix, and each of its entries is the entry of [temp.cor],
    the correlation matrix of the estimates scaled by the size factors, times
    the entry [adj.vec[i] * adj.vec[j]] of the outer product. *)
Theorem saver_cor_closed_form n estimate se sf :
  saver_fit n estimate se sf →
  ∃ adj cor,
    adj_vec n estimate se sf = Ok adj
    ∧ saver_cor n estimate se sf = Ok cor
    ∧ length adj = n
    ∧ map length cor = replicate n n
    ∧ (∀ i estimate_i se_i,
         estimate !! i = Some estimate_i → se !! i = Some se_i →
         adj !! i
         = Some (nsqrt (ndiv (var_na_rm (vmul estimate_i sf))
                             (nadd (var_na_rm (vmul estimate_i sf))
                                   (mean_na_rm (vmul (vsq se_i) (vsq sf)))))))
    ∧ (∀ i j, i < n → j < n →
         ∃ t a_i a_j,
           entry (temp_cor estimate sf) i j = Some t
           ∧ adj !! i = Some a_i ∧ adj !! j = Some a_j
           ∧ entry cor i j = Some (nmul t (nmul a_i a_j))).
Proof.
  intros (_ & Hest & Hse & _ & _).
  destruct (adj_vec_lookup n estimate se sf Hest Hse) as (adj & Hadj & Hlen & Hentries).
  exists adj, (zip_with (zip_with nmul) (temp_cor estimate sf) (outer adj adj)).
  split_and!; [done|by apply saver_cor_Ok|done| |exact Hentries|].
  { rewrite shape_zip_with; rewrite shape_temp_cor, ?shape_outer; congruence. }
  intros i j Hi Hj.
  destruct (lookup_lt_is_Some_2 estimate i) as [x Hx]; [lia|].
  destruct (lookup_lt_is_Some_2 estimate j) as [y Hy]; [lia|].
  destruct (lookup_lt_is_Some_2 adj i) as [a_i Ha_i]; [lia|].
  destruct (lookup_lt_is_Some_2 adj j) as [a_j Ha_j]; [lia|].
  exists (cor_entry i j (vmul x sf) (vmul y sf)), a_i, a_j.
  split_and!; [by apply entry_temp_cor|done|done|by apply scaled_entry].
Qed.

Lemma saver_cor_closed_form_witness :
  ∃ adj cor,
    adj_vec 2 example_estimate example_se example_sf = Ok adj
    ∧ saver_cor 2 example_estimate example_se example_sf = Ok cor
    ∧ length adj = 2.
Proof.
  destruct (saver_cor_closed_form 2 example_estimate example_se example_sf)
    as (adj & cor & Hadj & Hcor & Hlen & _ & _).
  { split_and!; [lia|reflexivity|reflexivity|repeat constructor..]. }
  exists adj, cor. split_and!; [exact Hadj|exact Hcor|exact Hlen].
Defined.

(** C4.  When [temp.cor] is symmetric with entries in [-1, 1] and, for every
    gene, the variance term and the mean squared standard error term are
    nonnegative numbers, [saver.cor] is computed, is symmetric and has its
    entries in [-1, 1], provided there are at least two genes or no gene has
    both terms zero. *)
Theorem saver_cor_symmetric_bounded n estimate se sf :
  saver_fit n estimate se sf →
  (∀ i j, i < n → j < n →
     ∃ t, entry (temp_cor estimate sf) i j = Some (Some t) ∧ (-1 <= t <= 1)%R) →
  (∀ i j, i < n → j < n →
     entry (temp_cor estimate sf) i j = entry (temp_cor estimate sf) j i) →
  (∀ i estimate_i se_i, estimate !! i = Some estimate_i → se !! i = Some se_i →
     ∃ v m, var_na_rm (vmul estimate_i sf) = Some v
            ∧ mean_na_rm (vmul (vsq se_i) (vsq sf)) = Some m
            ∧ (0 <= v)%R ∧ (0 <= m)%R) →
  (2 ≤ n
   ∨ ∀ i estimate_i se_i v m, estimate !! i = Some estimate_i → se !! i = Some se_i →
       var_na_rm (vmul estimate_i sf) = Some v →
       mean_na_rm (vmul (vsq se_i) (vsq sf)) = Some m → (0 < v + m)%R) →
  ∃ cor, saver_cor n estimate se sf = Ok cor
    ∧ ∀ i j, i < n → j < n →
        entry cor i j = entry cor j i
        ∧ ∃ c, entry cor i j = Some (Some c) ∧ (-1 <= c <= 1)%R.
Proof.
  intros (_ & Hest & Hse & _ & _) Hrange Hsym Hterms Hproper.
  destruct (adj_vec_lookup n estimate se sf Hest Hse) as (adj & Hrun & Hlen & Hadj).
  exists (zip_with (zip_with nmul) (temp_cor estimate sf) (outer adj adj)).
  split; [by apply saver_cor_Ok|].
  assert (∀ i, i < n → ∃ x a, estimate !! i = Some x ∧ adj !! i = Some (Some a)
                         ∧ (0 <= a <= 1)%R) as Hunit.
  { intros i Hi.
    destruct (lookup_lt_is_Some_2 estimate i) as [x Hx]; [lia|].
    destruct (lookup_lt_is_Some_2 se i) as [s Hs]; [lia|].
    destruct (Hterms i x s Hx Hs) as (v & m & Hv & Hm & Hvpos & Hmpos).
    assert (0 < v + m)%R as Hpos.
    { destruct Hproper as [Htwo|Hproper]; [|by eapply Hproper].
      (* another gene: its correlation with gene [i] is a number *)
      set (j := if decide (i = 0) then 1 else 0).
      assert (j < n ∧ i ≠ j) as [Hj Hij] by (unfold j; case_decide; lia).
      destruct (lookup_lt_is_Some_2 estimate j) as [y Hy]; [lia|].
      destruct (Hrange i j Hi Hj) as (t & Ht & _).
      rewrite (entry_temp_cor _ _ _ _ _ _ Hx Hy) in Ht. injection Ht as Ht.
      unfold cor_entry in Ht. case_decide; [done|].
      rewrite decide_False in Ht by done.
      destruct (pearson_var _ _ _ Ht) as (v' & Hv' & Hv'pos).
      assert (v' = v) as -> by congruence. lra. }
    destruct (adj_entry_unit x s sf v m Hv Hvpos Hm Hmpos Hpos) as (a & Ha & Hbounds).
    exists x, a. split; [done|]. split; [|done].
    by rewrite (Hadj i x s Hx Hs), Ha. }
  intros i j Hi Hj.
  destruct (Hunit i Hi) as (x & a & Hx & Ha & Habounds).
  destruct (Hunit j Hj) as (y & b & Hy & Hb & Hbbounds).
  destruct (Hrange i j Hi Hj) as (r & Hr & Hrbounds).
  pose proof (Hsym i j Hi Hj) as Hji.
  rewrite (entry_temp_cor _ _ _ _ _ _ Hx Hy) in Hr, Hji.
  rewrite (entry_temp_cor _ _ _ _ _ _ Hy Hx) in Hji.
  injection Hr as Hr. injection Hji as Hji.
  rewrite (scaled_entry _ _ _ _ _ _ _ _ _ Hx Hy Ha Hb).
  rewrite (scaled_entry _ _ _ _ _ _ _ _ _ Hy Hx Hb Ha).
  rewrite <-Hji, Hr. simpl. split.
  - do 3 f_equal. apply Rmult_comm.
  - eexists. split; [reflexivity|]. by apply scaled_correlation_bounded.
Qed.

Lemma saver_cor_symmetric_bounded_witness :
  ∃ cor, saver_cor 2 example_estimate example_se example_sf = Ok cor
    ∧ entry cor 0 1 = entry cor 1 0
    ∧ ∃ c, entry cor 0 1 = Some (Some c) ∧ (-1 <= c <= 1)%R.
Proof.
  destruct (saver_cor_symmetric_bounded 2 example_estimate example_se example_sf)
    as (cor & Hcor & Hprops).
  - split_and!; [lia|reflexivity|reflexivity|repeat constructor..].
  - intros i j Hi Hj. rewrite example_temp_cor.
    assert (i = 0 ∨ i = 1) as [-> | ->] by lia;
      (assert (j = 0 ∨ j = 1) as [-> | ->] by lia);
      eexists; (split; [reflexivity|lra]).
  - intros i j Hi Hj. rewrite example_temp_cor.
    assert (i = 0 ∨ i = 1) as [-> | ->] by lia;
      (assert (j = 0 ∨ j = 1) as [-> | ->] by lia); reflexivity.
  - intros i e s He Hs.
    destruct (example_terms i e s He Hs) as (v & m & Hv & Hm & Hvpos & Hmpos & _).
    exists v, m. split_and!; assumption.
  - left. lia.
  - exists cor. split; [exact Hcor|]. apply (Hprops 0 1); lia.
Defined.

(** The claim as stated fails for a single gene whose estimates are all the
    same and whose standard errors are zero.  The input is valid: [temp.cor]
    is the matrix of the one entry 1, which R sets on the diagonal, and the
    variance and the mean squared standard error are the nonnegative
    number 0.  But the reliability factor is then 0 / 0, and the one entry
    of [saver.cor] is not a number. *)
Lemma saver_cor_constant_gene :
  saver_fit 1 constant_estimate zero_se example_sf
  ∧ temp_cor constant_estimate example_sf = [[Some 1%R]]
  ∧ var_na_rm (vmul [Some 1%R; Some 1%R] example_sf) = Some 0%R
  ∧ mean_na_rm (vmul (vsq [Some 0%R; Some 0%R]) (vsq example_sf)) = Some 0%R
  ∧ saver_cor 1 constant_estimate zero_se example_sf = Ok [[None]]
  ∧ ¬ ∃ c, entry [[None]] 0 0 = Some (Some c) ∧ (-1 <= c <= 1)%R.
Proof.
  destruct constant_gene_terms as (Hv & Hm & Hadj).
  split_and!; [|reflexivity|exact Hv|exact Hm| |].
  - split_and!; [lia|reflexivity|reflexivity|repeat constructor..].
  - rewrite (saver_cor_Ok 1 constant_estimate zero_se example_sf [None]).
    + reflexivity.
    + reflexivity.
    + rewrite (adj_vec_Ok 1) by reflexivity. cbn [seq map]. f_equal.
      change (default [] (constant_estimate !! 0)) with [Some 1%R; Some 1%R].
      change (default [] (zero_se !! 0)) with [Some 0%R; Some 0%R].
      by rewrite Hadj.
    + reflexivity.
  - intros (c & Hc & _). discriminate.
Qed.

End saver_claims.

(** * More on the sampled power analysis *)

Section power_curve_more.
Import PowerCurve.

Lemma elem_of_drop_duplicates_from seen l x :
  x ∈ drop_duplicates_from seen l ↔ x ∈ l ∧ x ∉ seen.
Proof.
  revert seen. induction l as [|y l IH]; intros seen; simpl.
  - rewrite elem_of_nil. tauto.
  - case_bool_decide as Hy.
    + rewrite IH, elem_of_cons. split; [tauto|].
      intros [[->|Hx] Hseen]; [done|tauto].
    + rewrite !elem_of_cons, IH, elem_of_cons. split.
      * intros [->|[Hx Hseen]]; [tauto|]. split; [tauto|]. intros Hs. apply Hseen. tauto.
      * intros [[->|Hx] Hseen]; [tauto|].
        destruct (decide (x = y)) as [->|Hne]; [tauto|]. right. split; [done|].
        intros [?|?]; tauto.
Qed.

Lemma NoDup_drop_duplicates_from seen l : NoDup (drop_duplicates_from seen l).
Proof.
  revert seen. induction l as [|y l IH]; intros seen; simpl; [constructor|].
  case_bool_decide as Hy; [apply IH|].
  constructor; [|apply IH]. rewrite elem_of_drop_duplicates_from, elem_of_cons. tauto.
Qed.

Lemma sublist_drop_duplicates_from seen l : drop_duplicates_from seen l `sublist_of` l.
Proof.
  revert seen. induction l as [|y l IH]; intros seen; simpl; [done|].
  case_bool_decide; [by apply sublist_cons|by apply sublist_skip].
Qed.

Lemma drop_duplicates_from_seen_filter (s t l : list string) :
  (∀ y, y ∈ t → y ∈ s) →
  drop_duplicates_from s (filter (λ y, y ∉ t) l) = drop_duplicates_from s l.
Proof.
  revert s. induction l as [|y l IH]; intros s Hts; [done|].
  rewrite filter_cons. destruct (decide (y ∉ t)) as [Hy|Hy]; simpl.
  - case_bool_decide; [by apply IH|]. f_equal. apply IH.
    intros z Hz. right. by apply Hts.
  - apply dec_stable in Hy. rewrite bool_decide_eq_true_2 by (by apply Hts).
    by apply IH.
Qed.

Lemma drop_duplicates_from_filter seen l :
  drop_duplicates_from seen l = drop_duplicates_from [] (filter (λ y, y ∉ seen) l).
Proof.
  assert (∀ seen seen', (∀ y, y ∈ seen' → y ∈ seen) →
    drop_duplicates_from seen l
    = drop_duplicates_from seen' (filter (λ y, y ∉ seen) l)) as Hgen.
  { induction l as [|y l IH]; intros seen0 seen' Hsub; [done|].
    rewrite filter_cons. simpl. case_bool_decide as Hy.
    - rewrite decide_False by tauto. by apply IH.
    - rewrite decide_True by done. simpl.
      rewrite bool_decide_eq_false_2 by (intros Hy'; by apply Hy, Hsub).
      f_equal. rewrite (IH (y :: seen0) (y :: seen')).
      + rewrite <-(drop_duplicates_from_seen_filter (y :: seen') [y]
                    (filter (λ z, z ∉ seen0) l)).
        * f_equal. rewrite list_filter_filter. apply list_filter_iff.
          intros z. rewrite elem_of_cons, list_elem_of_singleton. tauto.
        * intros z ->%list_elem_of_singleton. left.
      + intros z. rewrite !elem_of_cons. intros [->|Hz]; [by left|right; by apply Hsub]. }
  apply Hgen. intros y Hy. by apply elem_of_nil in Hy.
Qed.

Lemma drop_duplicates_from_NoDup seen l :
  NoDup l → (∀ y, y ∈ l → y ∉ seen) → drop_duplicates_from seen l = l.
Proof.
  intros Hl. revert seen. induction Hl as [|y l Hy Hl IH]; intros seen Hseen; [done|].
  simpl. rewrite bool_decide_eq_false_2 by (apply Hseen; left). f_equal.
  apply IH. intros z Hz. rewrite elem_of_cons. intros [->|Hs]; [done|].
  by apply (Hseen z); [right|].
Qed.

(** X1.  [drop_duplicates] keeps the first occurrence of each value: its
    result has no duplicates, holds exactly the values of the column, in the
    order of their first occurrences, and is unchanged by a second pass. *)
Theorem drop_duplicates_spec (cg_cov : list string) :
  NoDup (drop_duplicates cg_cov)
  ∧ (∀ c, c ∈ drop_duplicates cg_cov ↔ c ∈ cg_cov)
  ∧ drop_duplicates cg_cov `sublist_of` cg_cov
  ∧ (∀ c rest, cg_cov = c :: rest →
       drop_duplicates cg_cov = c :: drop_duplicates (filter (λ y, y ≠ c) rest))
  ∧ drop_duplicates (drop_duplicates cg_cov) = drop_duplicates cg_cov.
Proof.
  unfold drop_duplicates. split_and!.
  - apply NoDup_drop_duplicates_from.
  - intros c. rewrite elem_of_drop_duplicates_from, elem_of_nil. tauto.
  - apply sublist_drop_duplicates_from.
  - intros c rest ->. simpl. f_equal. rewrite drop_duplicates_from_filter.
    f_equal. apply list_filter_iff. intros z. rewrite list_elem_of_singleton. done.
  - apply drop_duplicates_from_NoDup; [apply NoDup_drop_duplicates_from|].
    intros y _. apply not_elem_of_nil.
Qed.

Lemma mapM_result_ext {A B} (f g : A → result B) (xs : list A) :
  (∀ x, x ∈ xs → f x = g x) → mapM f xs = mapM g xs.
Proof.
  induction xs as [|x xs IH]; intros Hfg; simpl; [done|].
  rewrite (Hfg x) by left. rewrite IH; [done|]. intros y Hy. apply Hfg. by right.
Qed.

(** X2.  The result depends on the file system only through the files of
    the run's conditions: two file systems that agree on those give the same
    table, or the same exception. *)
Theorem power_curve_reads_only_its_files fs fs' pops nis nr cts :
  (∀ pop ni r ct, pop ∈ pops → ni ∈ nis → r < nr → ct ∈ cts →
     meq_files fs !! meq_path pop ct ni r = meq_files fs' !! meq_path pop ct ni r
     ∧ mem_files fs !! mem_path pop ct ni r = mem_files fs' !! mem_path pop ct ni r) →
  power_curve fs pops nis nr cts = power_curve fs' pops nis nr cts.
Proof.
  intros Hagree. rewrite !power_curve_flat.
  rewrite (mapM_result_ext (records_of fs) (records_of fs')); [done|].
  intros [[[pop ni] r] ct] (Hpop & Hni & Hr & Hct)%elem_of_conditions.
  destruct (Hagree pop ni r ct Hpop Hni Hr Hct) as [Hmeq Hmem].
  unfold records_of, read_csv. by rewrite Hmeq, Hmem.
Qed.

Lemma power_curve_reads_only_its_files_witness :
  power_curve example_fs ["asian"] [50] 2 ["B"; "T4"]
  = power_curve crowded_fs ["asian"] [50] 2 ["B"; "T4"].
Proof.
  apply power_curve_reads_only_its_files.
  intros pop ni r ct Hpop Hni Hr Hct.
  apply list_elem_of_singleton in Hpop as ->.
  apply list_elem_of_singleton in Hni as ->.
  assert (r = 0 ∨ r = 1) as [-> | ->] by lia;
    (apply elem_of_cons in Hct as [-> | ->%list_elem_of_singleton]);
    split; reflexivity.
Defined.

(** X3.  A memento table without rows stops the run with ZeroDivisionError:
    when the conditions before it are computed and both of its files are
    read, the division by the table's row count raises and no table is
    produced. *)
Theorem power_curve_empty_table fs pops nis nr cts pre pop ni r ct post meq :
  conditions pops nis nr cts = pre ++ (pop, ni, r, ct) :: post →
  (∀ c, c ∈ pre → is_Ok (records_of fs c)) →
  meq_files fs !! meq_path pop ct ni r = Some meq →
  mem_files fs !! mem_path pop ct ni r = Some [] →
  power_curve fs pops nis nr cts = Raise ZeroDivisionError.
Proof.
  intros Hcs Hpre Hmeq Hmem. rewrite power_curve_flat, Hcs.
  rewrite (mapM_first_raise _ pre _ post ZeroDivisionError Hpre); [done|].
  unfold records_of, read_csv. by rewrite Hmeq, Hmem.
Qed.

Lemma power_curve_empty_table_witness :
  power_curve empty_tables_fs ["asian"] num_inds num_resample ["B"]
  = Raise ZeroDivisionError.
Proof.
  apply (power_curve_empty_table empty_tables_fs ["asian"] num_inds num_resample ["B"]
           [] "asian" 50 0 "B"
           (tail (conditions ["asian"] num_inds num_resample ["B"])) example_meq).
  - reflexivity.
  - intros c Hc. by apply elem_of_nil in Hc.
  - vm_compute. reflexivity.
  - vm_compute. reflexivity.
Defined.

Lemma flat_map_ext_elem {A B} (f g : A → list B) (l : list A) :
  (∀ x, x ∈ l → f x = g x) → flat_map f l = flat_map g l.
Proof.
  induction l as [|x l IH]; intros Hfg; simpl; [done|].
  rewrite (Hfg x) by left. rewrite IH; [done|]. intros y Hy. apply Hfg. by right.
Qed.

(** X4.  The numerator of the 'Pseudobulk' power counts the pairs of a
    memento row and a matching Matrix eQTL row with p-value below 0.05: a
    memento row without a match contributes nothing (its p-value is NaN), a
    row with several matches contributes once for each significant one.  So
    only the rows of the Matrix eQTL table whose pair occurs in the memento
    table matter. *)
Theorem power_pseudobulk_counts_pairs (mem : list mem_row) (meq : list meq_row) :
  power_pseudobulk mem meq
  = py_div (sum_list_with (λ l, length (significant_matches meq l)) mem) (length mem)
  ∧ merge_left mem (relevant mem meq) = merge_left mem meq.
Proof.
  split.
  - unfold power_pseudobulk. f_equal. unfold merge_left.
    induction mem as [|l mem IH]; [done|]. cbn [flat_map sum_list_with].
    rewrite List.filter_app, length_app, IH. f_equal.
    unfold join_rows, significant_matches.
    destruct (matches l meq) as [|r ms]; [done|].
    generalize (r :: ms). intros rs. induction rs as [|r' rs IHrs]; [done|].
    simpl. destruct (lt_0_05 (meq_p_value r')); simpl; by rewrite IHrs.
  - unfold merge_left. apply flat_map_ext_elem. intros l Hl%list_elem_of_In.
    unfold join_rows. replace (matches l (relevant mem meq)) with (matches l meq); [done|].
    unfold matches, relevant. induction meq as [|r meq IH]; [done|]. simpl.
    destruct (key_match l r) eqn:Hkey.
    + assert (existsb (λ l0, key_match l0 r) mem = true) as ->.
      { apply existsb_exists. exists l. by split. }
      simpl. by rewrite Hkey, IH.
    + destruct (existsb _ mem); simpl; [by rewrite Hkey|done].
Qed.

Lemma length_filter_bind_const {A B} (P : B → bool) (f : A → list B)
    (l : list A) (k : nat) :
  (∀ x, length (List.filter P (f x)) = k) →
  length (List.filter P (x ← l; f x)) = length l * k.
Proof.
  intros Hf. induction l as [|x l IH]; [done|].
  change (length (List.filter P (f x ++ (y ← l; f y))) = k + length l * k).
  by rewrite List.filter_app, length_app, Hf, IH.
Qed.

Lemma count_conditions_of_ct pops nis nr cts c :
  length (List.filter (λ cond : condition, String.eqb cond.2 c)
                      (conditions pops nis nr cts))
  = length pops * length nis * nr * length (List.filter (λ x, String.eqb x c) cts).
Proof.
  unfold conditions.
  set (k := length (List.filter (λ x, String.eqb x c) cts)).
  rewrite (length_filter_bind_const _ _ pops (length nis * nr * k)); [lia|].
  intros pop. rewrite (length_filter_bind_const _ _ nis (nr * k)); [lia|].
  intros ni. rewrite (length_filter_bind_const _ _ (seq 0 nr) k);
    [by rewrite length_seq|].
  intros r. subst k. induction cts as [|x cts IH]; [done|].
  change (length (List.filter (λ cond : condition, String.eqb cond.2 c)
                    ((pop, ni, r, x) :: (ct ← cts; [(pop, ni, r, ct)])))
          = length (List.filter (λ y, String.eqb y c) (x :: cts))).
  simpl. destruct (String.eqb x c); simpl; by rewrite IH.
Qed.

Lemma count_in_NoDup (cts : list string) (c : string) :
  NoDup cts →
  length (List.filter (λ x, String.eqb x c) cts) = if decide (c ∈ cts) then 1 else 0.
Proof.
  induction 1 as [|x cts Hx Hcts IH]; [done|]. simpl.
  destruct (String.eqb_spec x c) as [->|Hne]; simpl; rewrite IH.
  - rewrite decide_False by done. rewrite decide_True by left. done.
  - destruct (decide (c ∈ cts)) as [Hc|Hc].
    + rewrite decide_True by (by right). done.
    + rewrite decide_False; [done|]. rewrite elem_of_cons. intros [->|?]; done.
Qed.

Lemma query_ct_records fs cs rss c :
  Forall2 (λ cond rs, records_of fs cond = Ok rs) cs rss →
  length (query_ct c (concat rss))
  = 2 * length (List.filter (λ cond : condition, String.eqb cond.2 c) cs).
Proof.
  unfold query_ct.
  induction 1 as [|[[[pop ni] r] x] rs cs rss Hrs _ IH]; [done|].
  apply records_of_inv in Hrs as (meq & mem & p & q & _ & _ & _ & _ & ->).
  cbn [concat]. rewrite List.filter_app, length_app, IH. simpl.
  destruct (String.eqb x c); simpl; lia.
Qed.

(** X5.  A panel of the figure plots, for its cell type, both records of
    every population, individual count and resample, 2 x |populations| x
    |individual counts| x num_resample in all (80 in the notebook), and
    nothing when the cell type is not one of the run's. *)
Theorem query_ct_count fs pops nis nr cts table c :
  power_curve fs pops nis nr cts = Ok table → NoDup cts →
  Forall (λ r, ct r = c) (query_ct c table)
  ∧ (c ∈ cts → length (query_ct c table) = 2 * (length pops * length nis * nr))
  ∧ (c ∉ cts → query_ct c table = []).
Proof.
  intros (rss & Hrss & ->)%power_curve_Ok_inv Hcts.
  assert (length (query_ct c (concat rss))
          = 2 * (length pops * length nis * nr * if decide (c ∈ cts) then 1 else 0))
    as Hcount.
  { by rewrite (query_ct_records _ _ _ _ Hrss), count_conditions_of_ct, count_in_NoDup. }
  split_and!.
  - apply Forall_forall. intros r [_ Hr]%list_elem_of_In%filter_In.
    by apply String.eqb_eq.
  - intros Hc. rewrite Hcount, decide_True by done. lia.
  - intros Hc. rewrite decide_False in Hcount by done.
    apply length_zero_iff_nil. lia.
Qed.

Lemma query_ct_count_witness :
  ∃ table, power_curve example_fs ["asian"] [50] 2 ["B"; "T4"] = Ok table
    ∧ length (query_ct "T4" table) = 4
    ∧ query_ct "NK" table = [].
Proof.
  eexists. split; [vm_compute; reflexivity|].
  edestruct (query_ct_count example_fs ["asian"] [50] 2 ["B"; "T4"]) as (_ & Hin & _).
  - vm_compute. reflexivity.
  - apply NoDup_cons. split; [|apply NoDup_singleton].
    intros H%list_elem_of_singleton. discriminate.
  - split; [apply Hin; right; left|reflexivity].
Defined.

End power_curve_more.

Section file_names.
Import Stdlib.Strings.Ascii PowerCurve.

Lemma occurs_app c s t : occurs c (s +:+ t) ↔ occurs c s ∨ occurs c t.
Proof. induction s as [|a s IH]; simpl; [tauto|]. rewrite IH. tauto. Qed.

Lemma pretty_N_go_occurs_underscore x s :
  occurs "_"%char (pretty_N_go x s) → occurs "_"%char s.
Proof.
  revert s. induction (N.lt_wf_0 x) as [x _ IH]; intros s.
  assert (x = 0 ∨ 0 < x)%N as [->|Hx] by lia; [by rewrite pretty_N_go_0|].
  rewrite pretty_N_go_step by done. intros Hocc.
  apply IH in Hocc; [|by apply N.div_lt]. destruct Hocc as [Hc|Hs]; [|done].
  exfalso. revert Hc. unfold pretty_N_char. by repeat case_match.
Qed.

(** The decimal numeral of a number has no underscore. *)
Lemma pretty_nat_no_underscore (n : nat) : ¬ occurs "_"%char (pretty n).
Proof.
  unfold pretty, pretty_nat, pretty, pretty_N. case_decide; [simpl; intros [?|?]; done|].
  intros Hocc%pretty_N_go_occurs_underscore. done.
Qed.

(** Two strings split at their first underscore agree part by part. *)
Lemma split_at_underscore (a a' r r' : string) :
  ¬ occurs "_"%char a → ¬ occurs "_"%char a' →
  a +:+ String "_"%char r = a' +:+ String "_"%char r' → a = a' ∧ r = r'.
Proof.
  revert a'. induction a as [|c a IH]; intros [|c' a'] Ha Ha'; simpl in *.
  - by intros [= ->].
  - intros [= <- _]. tauto.
  - intros [= -> _]. tauto.
  - intros [= -> Heq]. destruct (IH a') as [-> ->]; [tauto|tauto|done|done].
Qed.

Lemma string_length_app (s t : string) :
  String.length (s +:+ t) = String.length s + String.length t.
Proof. induction s as [|c s IH]; simpl; [done|]. by rewrite IH. Qed.

Lemma app_inj_suffix (s s' t : string) : s +:+ t = s' +:+ t → s = s'.
Proof.
  intros Heq.
  assert (String.length s = String.length s') as Hlen.
  { apply (f_equal String.length) in Heq. rewrite !string_length_app in Heq. lia. }
  revert s' Heq Hlen. induction s as [|c s IH]; intros [|c' s']; simpl; try done.
  intros [= -> Heq] [= Hlen]. f_equal. by apply IH.
Qed.

(** X6.  The file names encode the condition: for populations and cell types
    written without an underscore, two conditions that read the same Matrix
    eQTL file, or the same memento file, are the same condition.  (With an
    underscore in a name the encoding is ambiguous.) *)
Theorem paths_identify_conditions pop ct ni r pop' ct' ni' r' :
  ¬ occurs "_"%char pop → ¬ occurs "_"%char ct → ¬ occurs "_"%char pop' → ¬ occurs "_"%char ct' →
  meq_path pop ct ni r = meq_path pop' ct' ni' r'
  ∨ mem_path pop ct ni r = mem_path pop' ct' ni' r' →
  (pop, ni, r, ct) = (pop', ni', r', ct').
Proof.
  intros Hpop Hct Hpop' Hct' Heq.
  assert (∃ ext, pop +:+ String "_"%char (ct +:+ String "_"%char (pretty ni +:+ String "_"%char
                   (pretty r +:+ ext)))
                 = pop' +:+ String "_"%char (ct' +:+ String "_"%char (pretty ni' +:+ String "_"%char
                   (pretty r' +:+ ext)))) as [ext Hrest].
  { destruct Heq as [Heq|Heq]; [exists ".out"|exists ".csv"];
      unfold meq_path, mem_path in Heq;
      by do 2 apply String.app_inj in Heq. }
  apply split_at_underscore in Hrest as [-> Hrest]; [|done..].
  apply split_at_underscore in Hrest as [-> Hrest]; [|done..].
  apply split_at_underscore in Hrest as [Hni Hr]; [|apply pretty_nat_no_underscore..].
  apply (inj pretty) in Hni as ->.
  apply app_inj_suffix, (inj pretty) in Hr as ->. done.
Qed.

Lemma paths_identify_conditions_witness :
  ¬ occurs "_"%char "asian" ∧ ¬ occurs "_"%char "B"
  ∧ ("asian", 50, 1, "B") = ("asian", 50, 1, "B").
Proof.
  assert (¬ occurs "_"%char "asian") as Hpop by (simpl; intuition discriminate).
  assert (¬ occurs "_"%char "B") as Hct by (simpl; intuition discriminate).
  split_and!; [exact Hpop|exact Hct|].
  apply (paths_identify_conditions "asian" "B" 50 1 "asian" "B" 50 1 Hpop Hct Hpop Hct).
  left. reflexivity.
Defined.

(** The two conditions (a_b, c) and (a, b_c) read the same files. *)
Lemma paths_ambiguous_with_underscore :
  meq_path "a_b" "c" 50 1 = meq_path "a" "b_c" 50 1
  ∧ mem_path "a_b" "c" 50 1 = mem_path "a" "b_c" 50 1.
Proof. split; reflexivity. Qed.

End file_names.

(** * More on [drop_zero_col] *)

Section drop_zero_col_more.
Import Pandas.

(** A run of [drop_zero_col]: the new object and its value. *)
Lemma drop_zero_col_run (h : heap) (df : ref) (d : DataFrame) :
  h !! df = Some d →
  ∃ (l : ref) (h' : heap),
    drop_zero_col df h = Some (l, h')
    ∧ h !! l = None
    ∧ (∀ l0, is_Some (h !! l0) → h' !! l0 = h !! l0)
    ∧ h' !! l = Some {| index := index d;
                        columns := filter has_nonzero (columns d) |}.
Proof.
  intros Hdf.
  set (d1 := {| index := index d;
                columns := select_by_mask (any_ne_zero d) (columns d) |}).
  assert (d1 = {| index := index d; columns := filter has_nonzero (columns d) |}) as Hd1.
  { unfold d1. f_equal. apply select_by_mask_filter, existsb_ne_zero. }
  destruct (alloc_spec d1 h) as (l1 & Hl1 & Hfresh1).
  destruct (alloc_spec d1 (<[l1 := d1]> h)) as (l2 & Hl2 & Hfresh2).
  assert (l2 ≠ l1) as Hne by (intros ->; by rewrite lookup_insert_eq in Hfresh2).
  assert (h !! l2 = None) as Hfresh by (by rewrite lookup_insert_ne in Hfresh2).
  exists l2, (<[l2 := d1]> (<[l1 := d1]> h)). split_and!.
  - unfold drop_zero_col, loc_columns, copy, load, mbind, prog_bind.
    rewrite Hdf. cbn beta iota. rewrite Hdf. cbn beta iota. fold d1.
    rewrite Hl1, lookup_insert_eq. exact Hl2.
  - exact Hfresh.
  - intros l0 [d0 Hd0]. rewrite !lookup_insert_ne; [done|congruence..].
  - by rewrite lookup_insert_eq, Hd1.
Qed.

(** X7.  [drop_zero_col] is idempotent: applied to its own result it returns
    one more new object, with the same rows and columns as that result, and
    the dataframe it started from is still as it was. *)
Theorem drop_zero_col_twice (h : heap) (df : ref) (d : DataFrame) :
  h !! df = Some d →
  ∃ (l1 l2 : ref) (h1 h2 : heap) (d' : DataFrame),
    drop_zero_col df h = Some (l1, h1)
    ∧ drop_zero_col l1 h1 = Some (l2, h2)
    ∧ l1 ≠ l2
    ∧ h2 !! l1 = Some d' ∧ h2 !! l2 = Some d' ∧ h2 !! df = Some d.
Proof.
  intros Hdf.
  destruct (drop_zero_col_run h df d Hdf) as (l1 & h1 & Hrun1 & _ & Hframe1 & Hl1).
  destruct (drop_zero_col_run h1 l1 _ Hl1) as (l2 & h2 & Hrun2 & Hfresh2 & Hframe2 & Hl2).
  exists l1, l2, h1, h2. eexists. split_and!; [done|done| | | |].
  - intros Heq. rewrite Heq, Hfresh2 in Hl1. discriminate.
  - rewrite Hframe2 by (by eexists). exact Hl1.
  - rewrite Hl2. simpl. do 2 f_equal. by apply list_filter_filter_r.
  - assert (h1 !! df = Some d) as Hdf1 by (rewrite Hframe1; [done|by eexists]).
    rewrite Hframe2; [done|by eexists].
Qed.

Lemma drop_zero_col_twice_witness :
  ∃ l1 l2 h1 h2 d',
    drop_zero_col 1%positive example_heap = Some (l1, h1)
    ∧ drop_zero_col l1 h1 = Some (l2, h2)
    ∧ h2 !! l1 = Some d' ∧ h2 !! l2 = Some d'.
Proof.
  destruct (drop_zero_col_twice example_heap 1%positive example_df)
    as (l1 & l2 & h1 & h2 & d' & Hrun1 & Hrun2 & _ & Hl1 & Hl2 & _).
  - reflexivity.
  - exists l1, l2, h1, h2, d'. split_and!; [exact Hrun1|exact Hrun2|exact Hl1|exact Hl2].
Defined.

(** X8.  The edges of [drop_zero_col]: a dataframe in which every column
    has an entry different from zero is copied as it is, and a dataframe
    without rows loses all its columns. *)
Theorem drop_zero_col_edges (h : heap) (df : ref) (d : DataFrame) :
  h !! df = Some d →
  ∃ (l : ref) (h' : heap) (d' : DataFrame),
    drop_zero_col df h = Some (l, h') ∧ h' !! l = Some d'
    ∧ (Forall has_nonzero (columns d) → d' = d)
    ∧ (well_shaped d → index d = [] → columns d' = []).
Proof.
  intros Hdf.
  destruct (drop_zero_col_run h df d Hdf) as (l & h' & Hrun & _ & _ & Hl).
  exists l, h'. eexists. split_and!; [done|done| |].
  - intros Hall. clear Hdf Hrun Hl. destruct d as [idx cols]. simpl in *. f_equal.
    induction Hall as [|c cols Hc _ IH]; [done|].
    by rewrite filter_cons_True, IH.
  - intros Hshape Hidx. simpl. unfold well_shaped in Hshape. rewrite Hidx in Hshape.
    clear Hdf Hrun Hl Hidx.
    induction Hshape as [|c cols Hc _ IH]; [done|].
    rewrite filter_cons_False; [done|]. unfold has_nonzero.
    apply length_zero_iff_nil in Hc. rewrite Hc. by intros ?%Exists_nil.
Qed.

Lemma drop_zero_col_edges_witness :
  (∃ l h', drop_zero_col 1%positive {[ 1%positive := full_df ]} = Some (l, h')
           ∧ h' !! l = Some full_df)
  ∧ (∃ l h' d', drop_zero_col 1%positive {[ 1%positive := no_rows_df ]} = Some (l, h')
                ∧ h' !! l = Some d' ∧ columns d' = []).
Proof.
  split.
  - destruct (drop_zero_col_edges {[ 1%positive := full_df ]} 1%positive full_df)
      as (l & h' & d' & Hrun & Hl & Hfull & _); [reflexivity|].
    exists l, h'. split; [exact Hrun|]. rewrite <-Hfull; [exact Hl|].
    apply Forall_cons. split; [|apply Forall_cons; split; [|by apply Forall_nil]].
    + apply Exists_cons_tl, Exists_cons_hd. simpl. discriminate.
    + apply Exists_cons_hd. exact I.
  - destruct (drop_zero_col_edges {[ 1%positive := no_rows_df ]} 1%positive no_rows_df)
      as (l & h' & d' & Hrun & Hl & _ & Hempty); [reflexivity|].
    exists l, h', d'. split_and!; [exact Hrun|exact Hl|].
    apply Hempty; [repeat constructor|reflexivity].
Defined.

End drop_zero_col_more.

(** * More on the generation of simulation data *)

Section gene_names.
Import Stdlib.Strings.Ascii Simulation.

Lemma split_cons sep x : ∃ piece pieces, split sep x = piece :: pieces.
Proof.
  induction x as [|c x (piece & pieces & IH)]; simpl; [by eexists _, _|].
  destruct (Ascii.eqb c sep); [by eexists _, _|]. rewrite IH. by eexists _, _.
Qed.

Lemma join_cons sep piece pieces :
  join sep (piece :: pieces)
  = match pieces with [] => piece | _ => piece +:+ sep +:+ join sep pieces end.
Proof. done. Qed.

Lemma join_split_step sep' sep c x :
  Ascii.eqb c sep = false →
  join sep' (split sep (String c x)) = String c (join sep' (split sep x)).
Proof.
  intros Hc. cbn [split]. rewrite Hc.
  destruct (split_cons sep x) as (piece & pieces & ->).
  rewrite !join_cons. by destruct pieces.
Qed.

Lemma join_split_sep sep' sep x :
  join sep' (split sep (String sep x)) = sep' +:+ join sep' (split sep x).
Proof.
  cbn [split]. rewrite Ascii.eqb_refl.
  destruct (split_cons sep x) as (piece & pieces & ->). done.
Qed.

Lemma rename_var_replace x : rename_var x = replace_char "." "-" x.
Proof.
  unfold rename_var. induction x as [|c x IH]; [done|].
  cbn [replace_char]. destruct (Ascii.eqb c ".") eqn:Hc.
  - apply Ascii.eqb_eq in Hc as ->. by rewrite join_split_sep, IH.
  - by rewrite join_split_step, IH.
Qed.

(** X9.  Renaming a gene, ['-'.join(x.split('.'))], replaces every '.' of the
    name by '-' and leaves the other characters in place: the name keeps its
    length, has no '.' afterwards, is unchanged when it had none, and a
    second renaming changes nothing.  Joining the pieces with '.' again gives
    the name back. *)
Theorem rename_var_spec (x : string) :
  rename_var x = replace_char "." "-" x
  ∧ String.length (rename_var x) = String.length x
  ∧ ¬ occurs "." (rename_var x)
  ∧ (¬ occurs "." x → rename_var x = x)
  ∧ rename_var (rename_var x) = rename_var x
  ∧ join "." (split "." x) = x.
Proof.
  assert (∀ y, String.length (replace_char "." "-" y) = String.length y) as Hlen.
  { induction y as [|c y IH]; simpl; [done|]. by rewrite IH. }
  assert (∀ y, ¬ occurs "." (replace_char "." "-" y)) as Hno.
  { induction y as [|c y IH]; simpl; [tauto|]. intros [Hc|Hy]; [|done].
    destruct (Ascii.eqb c ".") eqn:Heq; [discriminate|].
    apply Ascii.eqb_neq in Heq. done. }
  assert (∀ y, ¬ occurs "." y → replace_char "." "-" y = y) as Hid.
  { induction y as [|c y IH]; simpl; [done|]. intros Hocc.
    destruct (Ascii.eqb c ".") eqn:Heq.
    - apply Ascii.eqb_eq in Heq. tauto.
    - rewrite IH; [done|tauto]. }
  rewrite !rename_var_replace. split_and!; [done|apply Hlen|apply Hno|apply Hid| |].
  - apply Hid, Hno.
  - induction x as [|c x IH]; [done|]. destruct (Ascii.eqb c ".") eqn:Hc.
    + apply Ascii.eqb_eq in Hc as ->. by rewrite join_split_sep, IH.
    + by rewrite join_split_step, IH.
Qed.

Lemma rename_var_spec_witness :
  rename_var "HLA.DRB1" = "HLA-DRB1" ∧ rename_var "CD14" = "CD14".
Proof.
  destruct (rename_var_spec "CD14") as (_ & _ & _ & Hid & _).
  split; [reflexivity|]. apply Hid. simpl. intuition discriminate.
Defined.

End gene_names.

Section sampling_more.
Import Simulation.

Lemma mapM_getitem_nth {A} (d : A) (l : list A) (idx : list nat) (xs : list A) :
  mapM (getitem l) idx = Ok xs → xs = map (λ i, nth i l d) idx.
Proof.
  intros Hxs%mapM_Ok_Forall2. induction Hxs as [|i x idx xs Hx _ IH]; [done|].
  simpl. rewrite <-IH. f_equal. unfold getitem in Hx.
  destruct (l !! i) as [y|] eqn:Hy; [|done]. injection Hx as <-.
  symmetry. by apply nth_lookup_Some.
Qed.

Lemma map_nth_seq_id {A} (d : A) (l : list A) :
  map (λ i, nth i l d) (seq 0 (length l)) = l.
Proof.
  apply list_eq. intros i. rewrite list_lookup_fmap.
  destruct (decide (i < length l)) as [Hi|Hi].
  - rewrite lookup_seq_lt by done. simpl.
    destruct (lookup_lt_is_Some_2 l i Hi) as [x Hx]. rewrite Hx.
    f_equal. by apply nth_lookup_Some.
  - rewrite lookup_seq_ge by lia. by rewrite lookup_ge_None_2 by lia.
Qed.

(** The elements at a prefix of a permutation of the positions are some of
    the elements, each at most as often as it occurs. *)
Lemma sampled_submseteq {A} (d : A) (l : list A) (perm : list nat) (n : nat) :
  perm ≡ₚ seq 0 (length l) →
  map (λ i, nth i l d) (take n perm) ⊆+ l
  ∧ (n = length l → map (λ i, nth i l d) (take n perm) ≡ₚ l).
Proof.
  intros Hperm.
  assert (map (λ i, nth i l d) perm ≡ₚ l) as Hall.
  { etrans; [apply Permutation_map, Hperm|]. by rewrite map_nth_seq_id. }
  split.
  - rewrite <-Hall. apply sublist_submseteq.
    change (map (λ i, nth i l d) (take n perm)) with ((λ i, nth i l d) <$> take n perm).
    rewrite fmap_take. apply sublist_take.
  - intros ->. rewrite take_ge; [done|]. by rewrite Hperm, length_seq.
Qed.

(** X10.  Subsampling draws without replacement: the rows of the sample are
    rows of the data, none taken more often than it occurs there, and the
    names go with the rows; distinct cell names stay distinct; and asking for
    as many cells as there are returns all of them, reordered. *)
Theorem subsample_without_replacement (perm : list nat) (data : AnnData) (new_n_obs : nat) :
  well_formed data →
  perm ≡ₚ seq 0 (n_obs data) →
  new_n_obs ≤ n_obs data →
  ∃ sample, subsample perm data new_n_obs = Ok sample
    ∧ X sample ⊆+ X data
    ∧ obs_names sample ⊆+ obs_names data
    ∧ zip (obs_names sample) (X sample) ⊆+ zip (obs_names data) (X data)
    ∧ (NoDup (obs_names data) → NoDup (obs_names sample))
    ∧ (new_n_obs = n_obs data →
         zip (obs_names sample) (X sample) ≡ₚ zip (obs_names data) (X data)).
Proof.
  intros [Hrows Hcols] Hperm Hle. unfold subsample, random_choice.
  rewrite decide_True by done. simpl.
  assert (Forall (λ i, i < n_obs data) (take new_n_obs perm)) as Hrange.
  { apply Forall_forall. intros i (k & Hk%list_elem_of_lookup_2 & _)%elem_of_take.
    rewrite Hperm in Hk. apply elem_of_seq in Hk. lia. }
  destruct (getitem_all (obs_names data) (take new_n_obs perm)) as (names & Hnames & _);
    [done|].
  destruct (getitem_all (X data) (take new_n_obs perm)) as (rows & Hrws & _);
    [by rewrite Hrows|].
  unfold index_obs. rewrite Hnames. simpl. rewrite Hrws. simpl.
  eexists. split; [reflexivity|]. simpl.
  apply (mapM_getitem_nth "") in Hnames. apply (mapM_getitem_nth []) in Hrws.
  assert (zip names rows
          = map (λ i, nth i (zip (obs_names data) (X data)) ("", []))
                (take new_n_obs perm)) as Hzip.
  { subst names rows. rewrite zip_with_fmap_l, zip_with_fmap_r, zip_with_diag.
    apply map_ext_in. intros i Hi. rewrite Forall_forall in Hrange.
    apply list_elem_of_In, Hrange in Hi.
    destruct (lookup_lt_is_Some_2 (obs_names data) i) as [a Ha]; [done|].
    destruct (lookup_lt_is_Some_2 (X data) i) as [b Hb]; [lia|].
    rewrite (nth_lookup_Some _ _ _ _ Ha), (nth_lookup_Some _ _ _ _ Hb).
    symmetry. apply nth_lookup_Some. rewrite lookup_zip_with, Ha. simpl. by rewrite Hb. }
  assert (length (zip (obs_names data) (X data)) = n_obs data) as Hlenzip.
  { rewrite length_zip_with. unfold n_obs in *. lia. }
  split_and!.
  - subst rows. apply sampled_submseteq. by rewrite Hrows.
  - subst names. by apply sampled_submseteq.
  - rewrite Hzip. apply sampled_submseteq. by rewrite Hlenzip.
  - intros Hnd. subst names.
    destruct (sampled_submseteq "" (obs_names data) perm new_n_obs Hperm) as [Hsub _].
    apply submseteq_Permutation in Hsub as [k Hk]. rewrite Hk in Hnd.
    by apply NoDup_app in Hnd as [? _].
  - intros ->. rewrite Hzip. apply sampled_submseteq; [by rewrite Hlenzip|done].
Qed.

Lemma subsample_without_replacement_witness :
  ∃ sample, subsample [2; 0; 3; 1] example_adata 2 = Ok sample
    ∧ X sample ⊆+ X example_adata.
Proof.
  destruct (subsample_without_replacement [2; 0; 3; 1] example_adata 2)
    as (sample & Hrun & Hsub & _).
  - split; [reflexivity|]. repeat constructor.
  - apply (Permutation_trans (perm_swap 0 2 [3; 1])).
    apply perm_skip. apply (Permutation_trans (perm_skip 2 (perm_swap 1 3 []))).
    apply perm_swap.
  - vm_compute. lia.
  - exists sample. split; [exact Hrun|exact Hsub].
Defined.

End sampling_more.

Section gene_filter_more.
Import Simulation.

Lemma gene_filter_Ok_inv (subset filtered : AnnData) :
  gene_filter subset = Ok filtered →
  0 < n_obs subset
  ∧ filtered = select_vars subset
      (map (λ j, gt_2_5 (column_mean subset j)) (seq 0 (n_vars subset))).
Proof.
  unfold gene_filter, mean_axis0.
  destruct (n_obs subset) as [|n] eqn:Hn; simpl; [done|].
  rewrite map_map. intros [= <-]. split; [lia|done].
Qed.

Lemma select_by_mask_all {A} (l : list A) (mask : list bool) :
  length mask = length l → Forall (λ b, b = true) mask → select_by_mask mask l = l.
Proof.
  intros Hlen Hall. revert l Hlen.
  induction Hall as [|b mask -> _ IH]; intros [|x l] Hlen; try done.
  simpl. f_equal. apply IH. simpl in Hlen. lia.
Qed.

Lemma length_select_by_mask {A B} (mask : list bool) (l : list A) (k : list B) :
  length l = length k → length (select_by_mask mask l) = length (select_by_mask mask k).
Proof.
  revert l k. induction mask as [|b mask IH]; intros [|x l] [|y k] Hlen; try done.
  simpl in *. destruct b; simpl; rewrite (IH l k) by lia; done.
Qed.

(** X11.  The gene filter keeps the shape invariant and is idempotent: its
    result is again a well-formed matrix, over no more genes, and filtering
    that result once more returns it unchanged. *)
Theorem gene_filter_idempotent (subset filtered : AnnData) :
  well_formed subset →
  gene_filter subset = Ok filtered →
  well_formed filtered
  ∧ n_obs filtered = n_obs subset
  ∧ n_vars filtered ≤ n_vars subset
  ∧ gene_filter filtered = Ok filtered.
Proof.
  intros [Hrows Hcols] [Hobs ->]%gene_filter_Ok_inv.
  set (mask := map (λ j, gt_2_5 (column_mean subset j)) (seq 0 (n_vars subset))).
  set (K := kept_vars subset).
  assert (var_names (select_vars subset mask)
          = map (λ j, nth j (var_names subset) "") K) as Hvars
    by (by apply select_by_mask_positions).
  assert (X (select_vars subset mask)
          = map (λ row, map (λ j, nth j row 0%Z) K) (X subset)) as HX.
  { apply map_ext_in. intros row Hrow%list_elem_of_In.
    rewrite Forall_forall in Hcols. by apply select_by_mask_positions, Hcols. }
  assert (n_obs (select_vars subset mask) = n_obs subset) as Hn by done.
  assert (n_vars (select_vars subset mask) = length K) as Hnv.
  { unfold n_vars. by rewrite Hvars, length_map. }
  assert (well_formed (select_vars subset mask)) as Hwf.
  { split; [by rewrite HX, length_map|]. rewrite Hnv, HX.
    apply Forall_forall. intros row (r & -> & _)%list_elem_of_fmap.
    by rewrite length_map. }
  assert (∀ k, k < length K →
            gt_2_5 (column_mean (select_vars subset mask) k) = true)
    as Hmeans.
  { intros k Hk. destruct (lookup_lt_is_Some_2 K k Hk) as [j Hj].
    assert (column (select_vars subset mask) k = column subset j) as Hcol.
    { unfold column. rewrite HX, map_map. apply map_ext. intros row.
      rewrite (nth_indep _ 0%Z (nth j row 0%Z)) by (by rewrite length_map).
      rewrite (map_nth (λ j, nth j row 0%Z)). f_equal.
      apply nth_lookup_Some with (d := j) in Hj. rewrite <-Hj at 2.
      by apply nth_indep. }
    unfold column_mean. rewrite Hcol, Hn.
    by apply list_elem_of_lookup_2, elem_of_kept_vars in Hj as [_ Hj]. }
  split_and!; [done|done| |].
  - rewrite Hnv. unfold K, kept_vars. etrans; [apply length_filter_le|].
    by rewrite length_seq.
  - generalize dependent (select_vars subset mask). intros f Hvars HX Hn Hnv Hwf Hmeans.
    unfold gene_filter, mean_axis0. rewrite Hn.
    destruct (n_obs subset) as [|n]; [lia|]. simpl. rewrite map_map. f_equal.
    set (mask' := map _ (seq 0 (n_vars f))).
    assert (Forall (λ b, b = true) mask') as Hall.
    { apply Forall_forall. intros b (k & -> & Hk%elem_of_seq)%list_elem_of_fmap.
      apply Hmeans. lia. }
    assert (length mask' = n_vars f) as Hlen by (unfold mask'; by rewrite length_map, length_seq).
    destruct f as [obs vars rows]. destruct Hwf as [_ Hshape].
    unfold select_vars, n_vars in *. simpl in *. f_equal.
    + by apply select_by_mask_all.
    + rewrite <-(map_id rows) at 2. apply map_ext_in. intros row Hrow%list_elem_of_In.
      rewrite Forall_forall in Hshape. apply select_by_mask_all; [|done].
      rewrite (Hshape row Hrow). done.
Qed.

Lemma gene_filter_idempotent_witness :
  ∃ filtered, gene_filter example_adata = Ok filtered
    ∧ gene_filter filtered = Ok filtered.
Proof.
  eexists. split; [vm_compute; reflexivity|].
  eapply (gene_filter_idempotent example_adata).
  - split; [reflexivity|]. repeat constructor.
  - vm_compute. reflexivity.
Defined.

End gene_filter_more.

Section downsampled_dataset.
Import Simulation.

Lemma select_by_mask_Forall {A} (P : A → Prop) (mask : list bool) (l : list A) :
  Forall P l → Forall P (select_by_mask mask l).
Proof.
  intros Hl. revert mask. induction Hl as [|x l Hx _ IH]; intros [|b mask]; simpl;
    try done.
  destruct b; [constructor|]; done.
Qed.

Lemma select_by_mask_sublist {A} (mask : list bool) (l : list A) :
  select_by_mask mask l `sublist_of` l.
Proof.
  revert l. induction mask as [|b mask IH]; intros [|x l]; simpl; try done.
  - apply sublist_nil_l.
  - destruct b; [by apply sublist_skip|by apply sublist_cons].
Qed.

Lemma select_by_conjunction_l {A} (f : A → bool) (l : list A) (m : list bool) :
  Forall (λ x, f x = true) (select_by_mask (zip_with andb (map f l) m) l).
Proof.
  revert m. induction l as [|x l IH]; intros [|b m]; simpl; try done.
  destruct (f x) eqn:Hx, b; simpl; try apply IH. constructor; [done|apply IH].
Qed.

Lemma select_by_conjunction_r {A} (g : A → bool) (l : list A) (m : list bool) :
  Forall (λ x, g x = true) (select_by_mask (zip_with andb m (map g l)) l).
Proof.
  revert m. induction l as [|x l IH]; intros [|b m]; simpl; try done.
  destruct (g x) eqn:Hx, b; simpl; try apply IH. constructor; [done|apply IH].
Qed.

Lemma Forall_eq_replicate {A} (c : A) (l : list A) :
  Forall (λ x, x = c) l → l = replicate (length l) c.
Proof. induction 1 as [|x l -> _ IH]; simpl; [done|]. by rewrite <-IH. Qed.

Lemma select_obs_complete (d : dataset) (mask : list bool) :
  complete d → complete (select_obs d mask).
Proof.
  intros ([Hrows Hcols] & Hcell & Hstim). unfold complete, well_formed, n_obs, n_vars in *.
  simpl. split_and!.
  - by apply length_select_by_mask.
  - by apply select_by_mask_Forall.
  - by apply length_select_by_mask.
  - by apply length_select_by_mask.
Qed.

Lemma subsample_dataset_Ok (perm : list nat) (d : dataset) (n : nat) :
  complete d → perm ≡ₚ seq 0 (n_obs (adata d)) → n ≤ n_obs (adata d) →
  ∃ s, subsample_dataset perm d n = Ok s
    ∧ complete s ∧ n_obs (adata s) = n
    ∧ var_names (adata s) = var_names (adata d)
    ∧ (∀ P, Forall P (cell d) → Forall P (cell s))
    ∧ (∀ P, Forall P (stim d) → Forall P (stim s)).
Proof.
  intros ([Hrows Hcols] & Hcell & Hstim) Hperm Hle.
  unfold subsample_dataset, random_choice. rewrite decide_True by done. simpl.
  assert (length (take n perm) = n) as Hlen.
  { rewrite length_take, Hperm, length_seq. lia. }
  assert (Forall (λ i, i < n_obs (adata d)) (take n perm)) as Hrange.
  { apply Forall_forall. intros i (k & Hk%list_elem_of_lookup_2 & _)%elem_of_take.
    rewrite Hperm in Hk. apply elem_of_seq in Hk. lia. }
  destruct (getitem_all (obs_names (adata d)) (take n perm)) as (names & Hnames & Hn);
    [done|].
  destruct (getitem_all (X (adata d)) (take n perm)) as (rows & Hrws & Hr);
    [by rewrite Hrows|].
  destruct (getitem_all (cell d) (take n perm)) as (cs & Hcs & Hc); [by rewrite Hcell|].
  destruct (getitem_all (stim d) (take n perm)) as (ss & Hss & Hs); [by rewrite Hstim|].
  unfold index_obs. rewrite Hnames. simpl. rewrite Hrws. simpl. rewrite Hcs. simpl.
  rewrite Hss. simpl. eexists. split; [reflexivity|].
  unfold complete, well_formed, n_obs, n_vars. simpl.
  split_and!; try congruence.
  - by eapply getitem_rows.
  - intros P HP. by eapply getitem_rows.
  - intros P HP. by eapply getitem_rows.
Qed.

Lemma subsample_dataset_too_many (perm : list nat) (d : dataset) (n : nat) :
  n_obs (adata d) < n → subsample_dataset perm d n = Raise ValueError.
Proof.
  intros Hlt. unfold subsample_dataset, random_choice. by rewrite decide_False by lia.
Qed.

Lemma select_vars_well_formed (a : AnnData) (mask : list bool) :
  well_formed a → well_formed (select_vars a mask).
Proof.
  intros [Hrows Hcols]. unfold well_formed, n_obs, n_vars in *. simpl.
  split; [by rewrite length_map|].
  apply Forall_forall. intros row (r & -> & Hr)%list_elem_of_fmap.
  rewrite Forall_forall in Hcols. by apply length_select_by_mask, Hcols.
Qed.

Lemma gene_filter_runs (a : AnnData) :
  0 < n_obs a →
  ∃ mask, gene_filter a = Ok (select_vars a mask).
Proof.
  intros Hobs. unfold gene_filter, mean_axis0.
  destruct (n_obs a) as [|n]; [lia|]. simpl. by eexists.
Qed.

(** X12.  The cell that builds [subset] yields a balanced dataset of CD14+
    monocytes: when the data has at least [n] control and [n] stimulated
    monocytes, the result has [2 n] cells, the first [n] control and the last
    [n] stimulated, so [stim_indicator] is [n] zeros followed by [n] ones; it
    is a complete dataset over some of the genes of the data, in their order.
    With fewer than [n] control monocytes the cell raises ValueError. *)
Theorem make_subset_balanced (n : nat) (perm_ctrl perm_stim : list nat) (ifn : dataset) :
  complete ifn → 0 < n →
  perm_ctrl ≡ₚ seq 0 (n_obs (adata (select_obs ifn (monocytes_with "ctrl" ifn)))) →
  perm_stim ≡ₚ seq 0 (n_obs (adata (select_obs ifn (monocytes_with "stim" ifn)))) →
  (n ≤ n_obs (adata (select_obs ifn (monocytes_with "ctrl" ifn))) →
   n ≤ n_obs (adata (select_obs ifn (monocytes_with "stim" ifn))) →
   ∃ s, make_subset n perm_ctrl perm_stim ifn = Ok s
     ∧ complete s
     ∧ n_obs (adata s) = 2 * n
     ∧ cell s = replicate (2 * n) "CD14+ Monocytes"
     ∧ stim s = replicate n "ctrl" ++ replicate n "stim"
     ∧ stim_indicator s = replicate n 0%Z ++ replicate n 1%Z
     ∧ var_names (adata s) `sublist_of` var_names (adata ifn))
  ∧ (n_obs (adata (select_obs ifn (monocytes_with "ctrl" ifn))) < n →
     make_subset n perm_ctrl perm_stim ifn = Raise ValueError).
Proof.
  intros Hifn Hn Hperm_c Hperm_s. split.
  - intros Hctrl Hstim. unfold make_subset.
    destruct (subsample_dataset_Ok perm_ctrl _ n
                (select_obs_complete ifn _ Hifn) Hperm_c Hctrl)
      as (c & -> & (Hcwf & Hccell & Hcstim) & Hcn & Hcvars & Hcc & Hcs).
    destruct (subsample_dataset_Ok perm_stim _ n
                (select_obs_complete ifn _ Hifn) Hperm_s Hstim)
      as (t & -> & (Htwf & Htcell & Htstim) & Htn & Htvars & Htc & Hts).
    simpl.
    assert (Forall (λ x, x = "CD14+ Monocytes") (cell c)) as Hc1.
    { apply Hcc. eapply Forall_impl; [apply select_by_conjunction_l|].
      intros x Hx. by apply String.eqb_eq in Hx. }
    assert (Forall (λ x, x = "CD14+ Monocytes") (cell t)) as Ht1.
    { apply Htc. eapply Forall_impl; [apply select_by_conjunction_l|].
      intros x Hx. by apply String.eqb_eq in Hx. }
    assert (Forall (λ x, x = "ctrl") (stim c)) as Hc2.
    { apply Hcs. eapply Forall_impl; [apply select_by_conjunction_r|].
      intros x Hx. by apply String.eqb_eq in Hx. }
    assert (Forall (λ x, x = "stim") (stim t)) as Ht2.
    { apply Hts. eapply Forall_impl; [apply select_by_conjunction_r|].
      intros x Hx. by apply String.eqb_eq in Hx. }
    apply Forall_eq_replicate in Hc1, Ht1, Hc2, Ht2.
    rewrite Hccell, Hcn in Hc1. rewrite Htcell, Htn in Ht1.
    rewrite Hcstim, Hcn in Hc2. rewrite Htstim, Htn in Ht2.
    assert (well_formed (adata (concatenate c t))) as Hwf.
    { destruct Hcwf as [Hcrows Hccols], Htwf as [Htrows Htcols].
      unfold well_formed, n_obs, n_vars in *. simpl. split.
      - rewrite !length_app, !length_map. lia.
      - apply Forall_app. split; [done|]. simpl in Hcvars, Htvars.
        by rewrite Hcvars, <-Htvars. }
    assert (n_obs (adata (concatenate c t)) = 2 * n) as Hobs.
    { unfold n_obs in *. simpl. rewrite length_app, !length_map. lia. }
    unfold gene_filter_dataset.
    destruct (gene_filter_runs (adata (concatenate c t))) as [mask ->]; [lia|].
    simpl. eexists. split; [reflexivity|]. simpl.
    split_and!.
    + split_and!; [by apply select_vars_well_formed|..];
        unfold n_obs in *; simpl; rewrite !length_app, !length_map; lia.
    + exact Hobs.
    + rewrite Hc1, Ht1, <-replicate_add. f_equal. lia.
    + by rewrite Hc2, Ht2.
    + unfold stim_indicator. simpl. rewrite Hc2, Ht2, map_app. f_equal.
      * clear. induction n as [|n IH]; simpl; [done|]. by rewrite IH.
      * clear. induction n as [|n IH]; simpl; [done|]. by rewrite IH.
    + etrans; [apply select_by_mask_sublist|]. simpl in *. by rewrite Hcvars.
  - intros Hlt. unfold make_subset.
    by rewrite (subsample_dataset_too_many perm_ctrl _ n Hlt).
Qed.

Lemma make_subset_balanced_witness :
  ∃ s, make_subset 1 [0] [1; 0] example_dataset = Ok s
    ∧ n_obs (adata s) = 2
    ∧ stim s = ["ctrl"; "stim"]
    ∧ stim_indicator s = [0; 1]%Z.
Proof.
  destruct (make_subset_balanced 1 [0] [1; 0] example_dataset)
    as [Hrun _].
  - split_and!; [split; [reflexivity|repeat constructor]|reflexivity..].
  - lia.
  - reflexivity.
  - apply perm_swap.
  - destruct Hrun as (s & Hrun & _ & Hobs & _ & Hstim & Hind & _).
    + vm_compute. lia.
    + vm_compute. lia.
    + exists s. split_and!; [exact Hrun|exact Hobs|exact Hstim|exact Hind].
Defined.

End downsampled_dataset.

Section replicates.
Import Stdlib.Strings.Ascii Simulation.

Lemma subsampled_path_inj (n_cells r r' : nat) :
  subsampled_path n_cells r = subsampled_path n_cells r' → r = r'.
Proof.
  unfold subsampled_path. intros Heq. do 2 apply String.app_inj in Heq.
  apply (split_at_underscore (pretty n_cells) (pretty n_cells)) in Heq as [_ Heq];
    [|apply pretty_nat_no_underscore..].
  by apply app_inj_suffix, (inj pretty) in Heq.
Qed.

Lemma subsample_runs (perm : list nat) (data : AnnData) (n : nat) :
  well_formed data → perm ≡ₚ seq 0 (n_obs data) → n ≤ n_obs data →
  ∃ sample, subsample perm data n = Ok sample ∧ n_obs sample = n.
Proof.
  intros [Hrows Hcols] Hperm Hle. unfold subsample, random_choice.
  rewrite decide_True by done. simpl.
  assert (length (take n perm) = n) as Hlen.
  { rewrite length_take, Hperm, length_seq. lia. }
  assert (Forall (λ i, i < n_obs data) (take n perm)) as Hrange.
  { apply Forall_forall. intros i (k & Hk%list_elem_of_lookup_2 & _)%elem_of_take.
    rewrite Hperm in Hk. apply elem_of_seq in Hk. lia. }
  destruct (getitem_all (obs_names data) (take n perm)) as (names & Hnames & Hn); [done|].
  destruct (getitem_all (X data) (take n perm)) as (rows & Hrws & Hr);
    [by rewrite Hrows|].
  unfold index_obs. rewrite Hnames. simpl. rewrite Hrws. simpl.
  eexists. split; [reflexivity|]. unfold n_obs. simpl. congruence.
Qed.

(** X13.  The loop that writes the replicates: on data with at least
    [n_cells] cells it writes, for each replicate, a file of its own that
    holds that replicate's sample of exactly [n_cells] cells, and leaves
    every other file as it was; on data with fewer cells the first
    subsampling raises ValueError and nothing is written. *)
Theorem write_samples_spec (replicates n_cells : nat) (perms : nat → list nat)
    (adata : AnnData) (files : gmap string AnnData) :
  well_formed adata →
  (∀ r, r < replicates → perms r ≡ₚ seq 0 (n_obs adata)) →
  (n_cells ≤ n_obs adata →
   ∃ files', write_samples replicates n_cells perms adata files = Ok files'
     ∧ (∀ r, r < replicates →
          ∃ sample, files' !! subsampled_path n_cells r = Some sample
            ∧ subsample (perms r) adata n_cells = Ok sample
            ∧ n_obs sample = n_cells)
     ∧ (∀ p, (∀ r, r < replicates → p ≠ subsampled_path n_cells r) →
          files' !! p = files !! p))
  ∧ (n_obs adata < n_cells → 0 < replicates →
     write_samples replicates n_cells perms adata files = Raise ValueError).
Proof.
  intros Hwf Hperms. split.
  - intros Hle. unfold write_samples.
    induction replicates as [|k IH].
    + exists files. split; [done|]. split; [intros r Hr; lia|done].
    + destruct IH as (files_k & Hrun & Hwritten & Hframe); [intros r Hr; apply Hperms; lia|].
      destruct (subsample_runs (perms k) adata n_cells Hwf) as (sample & Hsample & Hn);
        [apply Hperms; lia|done|].
      exists (<[subsampled_path n_cells k := sample]> files_k). split_and!.
      * rewrite seq_S, for_each_app, Hrun. simpl. by rewrite Hsample.
      * intros r Hr. destruct (decide (r = k)) as [->|Hne].
        -- exists sample. by rewrite lookup_insert_eq.
        -- destruct (Hwritten r) as (sample_r & Hlookup & Hrest); [lia|].
           exists sample_r. split; [|done].
           rewrite lookup_insert_ne; [done|].
           intros Heq%subsampled_path_inj. done.
      * intros p Hp. rewrite lookup_insert_ne by (apply not_eq_sym, Hp; lia).
        apply Hframe. intros r Hr. apply Hp. lia.
  - intros Hlt Hpos. unfold write_samples. destruct replicates as [|k]; [lia|].
    simpl. by rewrite subsample_too_many.
Qed.

Lemma write_samples_spec_witness :
  ∃ files', write_samples 2 2 (λ _, [2; 0; 3; 1]) example_adata ∅ = Ok files'
    ∧ ∃ sample, files' !! subsampled_path 2 1 = Some sample ∧ n_obs sample = 2.
Proof.
  destruct (write_samples_spec 2 2 (λ _, [2; 0; 3; 1]) example_adata ∅) as [Hrun _].
  - split; [reflexivity|]. repeat constructor.
  - intros r _. apply (Permutation_trans (perm_swap 0 2 [3; 1])).
    apply perm_skip. apply (Permutation_trans (perm_skip 2 (perm_swap 1 3 []))).
    apply perm_swap.
  - destruct Hrun as (files' & Hrun & Hwritten & _); [vm_compute; lia|].
    exists files'. split; [exact Hrun|].
    destruct (Hwritten 1) as (sample & Hlookup & _ & Hn); [lia|].
    exists sample. split; [exact Hlookup|exact Hn].
Defined.

End replicates.

(** * More on the SAVER comparison *)

Section saver_bounds.
Import Saver.
#[local] Open Scope R_scope.

Lemma sum_R_nonneg (l : list R) : Forall (λ x, 0 <= x) l → 0 <= sum_R l.
Proof. unfold sum_R. induction 1 as [|x l Hx _ IH]; simpl; lra. Qed.

Lemma INR_length_pos {A} (l : list A) : l ≠ [] → 0 < INR (length l).
Proof. intros Hl. destruct l; [done|]. apply lt_0_INR. simpl. lia. Qed.

Lemma var_na_rm_nonneg (x : list num) (v : R) : var_na_rm x = Some v → 0 <= v.
Proof.
  unfold var_na_rm. case_decide as Hlen; [done|]. intros [= <-].
  assert (2 <= INR (length (na_rm x))).
  { change 2 with (INR 2). apply le_INR. lia. }
  apply Rmult_le_pos; [apply sum_sq_dev_nonneg|].
  apply Rlt_le, Rinv_0_lt_compat. lra.
Qed.

Lemma squares_nonneg (s t : list num) :
  Forall (λ x, 0 <= x) (na_rm (vmul (vsq s) (vsq t))).
Proof.
  unfold na_rm, vmul, vsq. revert t.
  induction s as [|a s IH]; intros [|b t]; simpl; try done.
  destruct a as [a|], b as [b|]; simpl; try apply IH.
  constructor; [|apply IH]. pose proof (pow2_ge_0 a). pose proof (pow2_ge_0 b). nra.
Qed.

Lemma mean_sq_nonneg (s t : list num) (m : R) :
  mean_na_rm (vmul (vsq s) (vsq t)) = Some m → 0 <= m.
Proof.
  unfold mean_na_rm. pose proof (squares_nonneg s t) as Hsq.
  destruct (na_rm _) as [|y ys] eqn:Hys; [done|]. intros [= <-].
  unfold mean_R. apply Rmult_le_pos; [by apply sum_R_nonneg|].
  apply Rlt_le, Rinv_0_lt_compat, INR_length_pos. done.
Qed.

(** A reliability factor that is a number lies in [0, 1]. *)
Lemma adj_entry_range (estimate_i se_i sf : list num) (a : R) :
  adj_entry estimate_i se_i sf = Some a → 0 <= a <= 1.
Proof.
  unfold adj_entry.
  destruct (var_na_rm (vmul estimate_i sf)) as [v|] eqn:Hv; [|done].
  destruct (mean_na_rm (vmul (vsq se_i) (vsq sf))) as [m|] eqn:Hm; [|done].
  apply var_na_rm_nonneg in Hv. apply mean_sq_nonneg in Hm. simpl.
  destruct (Req_dec_T (v + m) 0) as [|Hne]; [done|]. simpl.
  destruct (Rle_dec 0 (v / (v + m))) as [Hlo|]; [|done]. intros [= <-].
  split; [apply sqrt_pos|]. rewrite <-sqrt_1. apply sqrt_le_1_alt.
  apply (Rmult_le_reg_r (v + m)); [lra|].
  unfold Rdiv. rewrite Rmult_assoc, Rinv_l; lra.
Qed.

(** X14.  Every entry of [adj.vec] that is a number lies in [0, 1],
    whatever the estimates, standard errors and size factors. *)
Theorem adj_vec_unit_interval n estimate se sf adj i (a : R) :
  length estimate = n → length se = n →
  adj_vec n estimate se sf = Ok adj →
  adj !! i = Some (Some a) → 0 <= a <= 1.
Proof.
  intros Hest Hse Hrun Hi.
  destruct (adj_vec_lookup n estimate se sf Hest Hse) as (adj' & Hrun' & Hlen & Hentries).
  assert (adj' = adj) as -> by congruence.
  assert (i < n)%nat as Hlt by (apply lookup_lt_Some in Hi; lia).
  destruct (lookup_lt_is_Some_2 estimate i) as [e He]; [lia|].
  destruct (lookup_lt_is_Some_2 se i) as [s Hs]; [lia|].
  rewrite (Hentries i e s He Hs) in Hi. injection Hi as Hi.
  by eapply adj_entry_range.
Qed.

(** The Cauchy-Schwarz inequality for the sums over two lists paired up to
    the shorter one. *)
Lemma cauchy_schwarz (a b : list R) :
  (sum_R (zip_with Rmult a b)) ^ 2
  <= sum_R (map (λ x, x ^ 2) a) * sum_R (map (λ x, x ^ 2) b).
Proof.
  unfold sum_R. revert b.
  induction a as [|x a IH]; intros [|y b]; cbn [zip_with map foldr].
  - lra.
  - lra.
  - lra.
  - specialize (IH b).
    set (C := foldr Rplus 0 (zip_with Rmult a b)) in *.
    assert (0 <= foldr Rplus 0 (map (λ x, x ^ 2) a)) as HA
      by (apply (sum_R_nonneg (map (λ x, x ^ 2) a)), Forall_forall;
          intros z (w & -> & _)%list_elem_of_fmap; apply pow2_ge_0).
    assert (0 <= foldr Rplus 0 (map (λ x, x ^ 2) b)) as HB
      by (apply (sum_R_nonneg (map (λ x, x ^ 2) b)), Forall_forall;
          intros z (w & -> & _)%list_elem_of_fmap; apply pow2_ge_0).
    set (A := foldr Rplus 0 (map (λ x, x ^ 2) a)) in *.
    set (B := foldr Rplus 0 (map (λ x, x ^ 2) b)) in *.
    assert (2 * (C * (x * y)) <= A * y ^ 2 + B * x ^ 2) as Hcross.
    { assert (0 <= A * y ^ 2 + B * x ^ 2) as Hpos
        by (pose proof (pow2_ge_0 x); pose proof (pow2_ge_0 y); nra).
      assert ((2 * (C * (x * y))) ^ 2 <= (A * y ^ 2 + B * x ^ 2) ^ 2) as Hsq.
      { assert (4 * (C ^ 2) * (x ^ 2 * y ^ 2) <= 4 * (A * B) * (x ^ 2 * y ^ 2)).
        { apply Rmult_le_compat_r; [|lra].
          pose proof (pow2_ge_0 x); pose proof (pow2_ge_0 y); nra. }
        pose proof (pow2_ge_0 (A * y ^ 2 - B * x ^ 2)). nra. }
      destruct (Rle_lt_dec (2 * (C * (x * y))) (A * y ^ 2 + B * x ^ 2)) as [|Hgt];
        [done|]. exfalso. nra. }
    nra.
Qed.

Lemma sum_sq_dev_as_squares (xs : list R) :
  sum_sq_dev xs = sum_R (map (λ x, x ^ 2) (map (λ x, x - mean_R xs) xs)).
Proof. unfold sum_sq_dev. by rewrite map_map. Qed.

Lemma sum_prod_dev_as_products (xs ys : list R) :
  sum_prod_dev xs ys
  = sum_R (zip_with Rmult (map (λ x, x - mean_R xs) xs) (map (λ y, y - mean_R ys) ys)).
Proof. unfold sum_prod_dev. by rewrite zip_with_fmap_l, zip_with_fmap_r. Qed.

Lemma pearson_inv (x y : list num) (t : R) :
  pearson x y = Some t →
  ∃ xs ys, mapM Datatypes.id x = Some xs ∧ mapM Datatypes.id y = Some ys
    ∧ (2 <= length xs)%nat
    ∧ 0 < sum_sq_dev xs * sum_sq_dev ys
    ∧ t = sum_prod_dev xs ys / sqrt (sum_sq_dev xs * sum_sq_dev ys).
Proof.
  unfold pearson.
  destruct (mapM Datatypes.id x) as [xs|]; simpl; [|done].
  destruct (mapM Datatypes.id y) as [ys|]; simpl; [|done].
  case_decide as Hlen; [done|].
  destruct (Req_dec_T _ _) as [|Hne]; [done|]. intros [= <-].
  exists xs, ys. split_and!; [done|done|lia| |done].
  pose proof (sum_sq_dev_nonneg xs). pose proof (sum_sq_dev_nonneg ys).
  destruct (Rle_lt_dec (sum_sq_dev xs * sum_sq_dev ys) 0) as [Hle|]; [|done].
  exfalso. apply Hne. nra.
Qed.

(** A correlation that is a number lies in [-1, 1], and a gene's correlation
    with itself is 1. *)
Lemma pearson_range (x y : list num) (t : R) :
  pearson x y = Some t → -1 <= t <= 1.
Proof.
  intros (xs & ys & _ & _ & _ & Hpos & ->)%pearson_inv.
  pose proof (cauchy_schwarz (map (λ x, x - mean_R xs) xs)
                             (map (λ y, y - mean_R ys) ys)) as Hcs.
  rewrite <-sum_prod_dev_as_products, <-!sum_sq_dev_as_squares in Hcs.
  set (P := sum_sq_dev xs * sum_sq_dev ys) in *. set (C := sum_prod_dev xs ys) in *.
  assert (0 < sqrt P) as Hs by (by apply sqrt_lt_R0).
  assert (sqrt P * sqrt P = P) as Hss by (apply sqrt_sqrt; lra).
  assert (- sqrt P <= C <= sqrt P) as [Hlo Hhi] by (split; nra).
  split.
  - apply (Rmult_le_reg_r (sqrt P)); [done|].
    unfold Rdiv. rewrite Rmult_assoc, Rinv_l; lra.
  - apply (Rmult_le_reg_r (sqrt P)); [done|].
    unfold Rdiv. rewrite Rmult_assoc, Rinv_l; lra.
Qed.

Lemma entry_temp_cor_inv estimate sf i j (v : num) :
  entry (temp_cor estimate sf) i j = Some v →
  ∃ x y, estimate !! i = Some x ∧ estimate !! j = Some y
         ∧ v = cor_entry i j (vmul x sf) (vmul y sf).
Proof.
  unfold entry, temp_cor. rewrite list_lookup_imap, list_lookup_fmap.
  destruct (estimate !! i) as [x|]; simpl; [|done].
  rewrite list_lookup_imap, list_lookup_fmap.
  destruct (estimate !! j) as [y|]; simpl; [|done].
  intros [= <-]. by exists x, y.
Qed.

Lemma cor_entry_range i j (x y : list num) (t : R) :
  cor_entry i j x y = Some t → -1 <= t <= 1.
Proof.
  unfold cor_entry. destruct (decide (length x < 2)%nat); [done|].
  destruct (decide (i = j)); [intros [= <-]; lra|]. apply pearson_range.
Qed.

Lemma cor_entry_diag i (x : list num) (t : R) :
  cor_entry i i x x = Some t → t = 1.
Proof.
  unfold cor_entry. destruct (decide (length x < 2)%nat); [done|].
  rewrite decide_True by done. by intros [= <-].
Qed.

(** X15.  Every entry of [temp.cor] that is a number lies in [-1, 1], and
    every entry of its diagonal that is a number is 1. *)
Theorem temp_cor_range estimate sf i j (t : R) :
  entry (temp_cor estimate sf) i j = Some (Some t) →
  -1 <= t <= 1 ∧ (i = j → t = 1).
Proof.
  intros (x & y & Hx & Hy & Ht)%entry_temp_cor_inv. symmetry in Ht. split.
  - by eapply cor_entry_range.
  - intros ->. assert (y = x) as -> by congruence. by eapply cor_entry_diag.
Qed.

Lemma temp_cor_range_witness :
  entry (temp_cor example_estimate example_sf) 0 1 = Some (Some (-1))
  ∧ -1 <= -1 <= 1.
Proof.
  assert (entry (temp_cor example_estimate example_sf) 0 1 = Some (Some (-1))) as Hentry
    by (by rewrite example_temp_cor).
  split; [exact Hentry|].
  apply (temp_cor_range example_estimate example_sf 0 1 (-1) Hentry).
Defined.

(** The value of [saver.cor] for estimates and standard errors of [n]
    genes. *)
Lemma saver_cor_value n estimate se sf cor :
  length estimate = n → length se = n →
  saver_cor n estimate se sf = Ok cor →
  ∃ adj, adj_vec n estimate se sf = Ok adj ∧ length adj = n
    ∧ (∀ i e s, estimate !! i = Some e → se !! i = Some s →
         adj !! i = Some (adj_entry e s sf))
    ∧ cor = zip_with (zip_with nmul) (temp_cor estimate sf) (outer adj adj).
Proof.
  intros Hest Hse Hcor.
  destruct (adj_vec_lookup n estimate se sf Hest Hse) as (adj & Hrun & Hlen & Hentries).
  exists adj. split_and!; [done..|].
  rewrite (saver_cor_Ok n estimate se sf adj Hest Hrun Hlen) in Hcor. congruence.
Qed.

Lemma saver_cor_entry_inv n estimate se sf cor i j (c : num) :
  length estimate = n → length se = n →
  saver_cor n estimate se sf = Ok cor →
  entry cor i j = Some c →
  ∃ x y s_i s_j, estimate !! i = Some x ∧ estimate !! j = Some y
    ∧ se !! i = Some s_i ∧ se !! j = Some s_j
    ∧ c = nmul (cor_entry i j (vmul x sf) (vmul y sf))
               (nmul (adj_entry x s_i sf) (adj_entry y s_j sf)).
Proof.
  intros Hest Hse Hcor Hc.
  destruct (saver_cor_value n estimate se sf cor Hest Hse Hcor)
    as (adj & _ & Hlen & Hadj & ->).
  assert (i < n ∧ j < n)%nat as [Hi Hj].
  { unfold entry in Hc.
    destruct (zip_with _ _ _ !! i) as [r|] eqn:Hr; [|done]. simpl in Hc.
    apply lookup_zip_with_Some in Hr as (tr & orow & -> & _ & Ho).
    apply lookup_zip_with_Some in Hc as (t & o & _ & _ & Hoj).
    unfold outer in Ho. rewrite list_lookup_fmap in Ho.
    destruct (adj !! i) as [a|] eqn:Ha; [|done]. injection Ho as <-.
    apply lookup_lt_Some in Ha, Hoj. rewrite length_map in Hoj. lia. }
  destruct (lookup_lt_is_Some_2 estimate i) as [x Hx]; [lia|].
  destruct (lookup_lt_is_Some_2 estimate j) as [y Hy]; [lia|].
  destruct (lookup_lt_is_Some_2 se i) as [s_i Hs_i]; [lia|].
  destruct (lookup_lt_is_Some_2 se j) as [s_j Hs_j]; [lia|].
  exists x, y, s_i, s_j. split_and!; [done..|].
  rewrite (scaled_entry _ _ _ _ _ _ _ _ _ Hx Hy (Hadj i x s_i Hx Hs_i) (Hadj j y s_j Hy Hs_j))
    in Hc. congruence.
Qed.

(** X16.  The adjustment only shrinks: every entry of [saver.cor] that is a
    number comes from an entry of [temp.cor] that is a number, is no larger
    than it in absolute value, and lies in [-1, 1]. *)
Theorem saver_cor_shrinks n estimate se sf cor i j (c : R) :
  length estimate = n → length se = n →
  saver_cor n estimate se sf = Ok cor →
  entry cor i j = Some (Some c) →
  ∃ t, entry (temp_cor estimate sf) i j = Some (Some t)
    ∧ Rabs c <= Rabs t ∧ -1 <= c <= 1.
Proof.
  intros Hest Hse Hcor Hc.
  destruct (saver_cor_entry_inv _ _ _ _ _ _ _ _ Hest Hse Hcor Hc)
    as (x & y & s_i & s_j & Hx & Hy & _ & _ & Heq).
  destruct (cor_entry i j (vmul x sf) (vmul y sf)) as [t|] eqn:Ht; [|done].
  destruct (adj_entry x s_i sf) as [a|] eqn:Ha; [|done].
  destruct (adj_entry y s_j sf) as [b|] eqn:Hb; [|done].
  injection Heq as ->.
  apply cor_entry_range in Ht as Htr. apply adj_entry_range in Ha, Hb.
  exists t. split_and!.
  - by rewrite (entry_temp_cor _ _ _ _ _ _ Hx Hy), Ht.
  - assert (0 <= a * b <= 1) as [Hlo Hhi] by nra.
    rewrite Rabs_mult, (Rabs_pos_eq (a * b)) by exact Hlo.
    pose proof (Rabs_pos t). nra.
  - by apply scaled_correlation_bounded.
  - by apply scaled_correlation_bounded.
Qed.

(** The reliability factors and an entry of [saver.cor] for the test data. *)
Lemma example_adj_entry i e s :
  example_estimate !! i = Some e → example_se !! i = Some s →
  ∃ a, adj_entry e s example_sf = Some a.
Proof.
  intros He Hs.
  destruct (example_terms i e s He Hs) as (v & m & Hv & Hm & Hvpos & Hmpos & Hpos).
  destruct (adj_entry_unit e s example_sf v m Hv Hvpos Hm Hmpos Hpos) as (a & Ha & _).
  by exists a.
Qed.

Lemma example_saver_cor :
  ∃ adj cor a c,
    adj_vec 2 example_estimate example_se example_sf = Ok adj
    ∧ adj !! 0%nat = Some (Some a)
    ∧ saver_cor 2 example_estimate example_se example_sf = Ok cor
    ∧ entry cor 0 1 = Some (Some c).
Proof.
  destruct (adj_vec_lookup 2 example_estimate example_se example_sf eq_refl eq_refl)
    as (adj & Hrun & Hlen & Hentries).
  destruct (example_adj_entry 0 _ _ eq_refl eq_refl) as [a Ha].
  destruct (example_adj_entry 1 _ _ eq_refl eq_refl) as [b Hb].
  pose proof (Hentries 0%nat _ _ eq_refl eq_refl) as H0. rewrite Ha in H0.
  pose proof (Hentries 1%nat _ _ eq_refl eq_refl) as H1. rewrite Hb in H1.
  exists adj, (zip_with (zip_with nmul) (temp_cor example_estimate example_sf)
                        (outer adj adj)), a.
  exists (-1 * (a * b)). split_and!; [done|done|by apply saver_cor_Ok|].
  rewrite (scaled_entry example_estimate example_sf adj 0 1 _ _ _ _
             eq_refl eq_refl H0 H1).
  pose proof (entry_temp_cor example_estimate example_sf 0 1 _ _ eq_refl eq_refl) as Ht.
  rewrite example_temp_cor in Ht.
  change (entry _ 0 1) with (Some (Some (-1))) in Ht.
  assert (cor_entry 0 1 (vmul [Some 0; Some 2] example_sf)
                        (vmul [Some 2; Some 0] example_sf)
          = Some (-1)) as -> by congruence.
  reflexivity.
Qed.

Lemma adj_vec_unit_interval_witness :
  ∃ adj a, adj_vec 2 example_estimate example_se example_sf = Ok adj
    ∧ adj !! 0%nat = Some (Some a) ∧ 0 <= a <= 1.
Proof.
  destruct example_saver_cor as (adj & _ & a & _ & Hrun & Ha & _).
  exists adj, a. split_and!; [exact Hrun|exact Ha|..];
    apply (adj_vec_unit_interval 2 example_estimate example_se example_sf adj 0 a
             eq_refl eq_refl Hrun Ha).
Defined.

Lemma saver_cor_shrinks_witness :
  ∃ cor c, saver_cor 2 example_estimate example_se example_sf = Ok cor
    ∧ entry cor 0 1 = Some (Some c) ∧ -1 <= c <= 1.
Proof.
  destruct example_saver_cor as (_ & cor & _ & c & _ & _ & Hcor & Hc).
  exists cor, c. split_and!; [exact Hcor|exact Hc|..];
    destruct (saver_cor_shrinks 2 example_estimate example_se example_sf cor 0 1 c
                eq_refl eq_refl Hcor Hc) as (t & _ & _ & Hlo & Hhi); assumption.
Defined.

Lemma mapM_id_length {A} (x : list (option A)) (xs : list A) :
  mapM Datatypes.id x = Some xs → length xs = length x.
Proof.
  revert xs. induction x as [|[a|] x IH]; intros xs; simpl; [by intros [= <-]| |done].
  destruct (mapM Datatypes.id x) as [xs'|]; simpl; [|done].
  intros [= <-]. simpl. by rewrite (IH xs').
Qed.

Lemma sum_prod_dev_comm (xs ys : list R) : sum_prod_dev xs ys = sum_prod_dev ys xs.
Proof.
  unfold sum_prod_dev. f_equal. generalize (mean_R xs) (mean_R ys). intros mx my.
  revert ys. induction xs as [|x xs IH]; intros [|y ys]; simpl; try done.
  f_equal; [ring|apply IH].
Qed.

(** Correlation is symmetric for two vectors of the same length. *)
Lemma pearson_sym (x y : list num) :
  length x = length y → pearson x y = pearson y x.
Proof.
  intros Hlen. unfold pearson.
  destruct (mapM Datatypes.id x) as [xs|] eqn:Hxs;
    destruct (mapM Datatypes.id y) as [ys|] eqn:Hys; simpl; try done.
  apply mapM_id_length in Hxs, Hys.
  rewrite (Rmult_comm (sum_sq_dev ys)), (sum_prod_dev_comm ys xs).
  repeat case_decide; try done; lia.
Qed.

Lemma cor_entry_sym i j (x y : list num) :
  length x = length y → cor_entry i j x y = cor_entry j i y x.
Proof.
  intros Hlen. unfold cor_entry. rewrite <-Hlen.
  destruct (decide (length x < 2)%nat); [done|].
  destruct (decide (i = j)) as [->|Hne]; [by rewrite decide_True|].
  rewrite decide_False by done. by apply pearson_sym.
Qed.

(** X17.  For estimates and standard errors of [n] genes in as many cells as
    there are size factors, [saver.cor] is symmetric, missing entries
    included. *)
Theorem saver_cor_symmetric n estimate se sf cor i j :
  saver_fit n estimate se sf →
  saver_cor n estimate se sf = Ok cor →
  (i < n)%nat → (j < n)%nat →
  entry cor i j = entry cor j i.
Proof.
  intros (_ & Hest & Hse & Hshape & _) Hcor Hi Hj.
  destruct (saver_cor_value n estimate se sf cor Hest Hse Hcor)
    as (adj & _ & Hlen & Hadj & ->).
  destruct (lookup_lt_is_Some_2 estimate i) as [x Hx]; [lia|].
  destruct (lookup_lt_is_Some_2 estimate j) as [y Hy]; [lia|].
  destruct (lookup_lt_is_Some_2 adj i) as [a Ha]; [lia|].
  destruct (lookup_lt_is_Some_2 adj j) as [b Hb]; [lia|].
  rewrite (scaled_entry _ _ _ _ _ _ _ _ _ Hx Hy Ha Hb).
  rewrite (scaled_entry _ _ _ _ _ _ _ _ _ Hy Hx Hb Ha).
  rewrite (cor_entry_sym i j (vmul x sf) (vmul y sf)).
  - do 2 f_equal. destruct a, b; simpl; [|done..]. f_equal. apply Rmult_comm.
  - unfold vmul. rewrite !length_zip_with. rewrite Forall_forall in Hshape.
    rewrite (Hshape x), (Hshape y); [done|by eapply list_elem_of_lookup_2..].
Qed.

Lemma saver_cor_symmetric_witness :
  ∃ cor, saver_cor 2 example_estimate example_se example_sf = Ok cor
    ∧ entry cor 0 1 = entry cor 1 0.
Proof.
  destruct example_saver_cor as (_ & cor & _ & _ & _ & _ & Hcor & _).
  exists cor. split; [exact Hcor|].
  apply (saver_cor_symmetric 2 example_estimate example_se example_sf cor 0 1).
  - split_and!; [lia|reflexivity|reflexivity|repeat constructor..].
  - exact Hcor.
  - lia.
  - lia.
Defined.

Lemma length_na_rm (x : list num) : (length (na_rm x) ≤ length x)%nat.
Proof.
  unfold na_rm. induction x as [|[a|] x IH]; [done|..].
  - change (S (length (omap Datatypes.id x)) ≤ S (length x))%nat. lia.
  - change (length (omap Datatypes.id x) ≤ S (length x))%nat. lia.
Qed.

(** With fewer than two estimates a gene has no variance and so no
    reliability factor. *)
Lemma adj_entry_few (estimate_i se_i sf : list num) :
  (length (vmul estimate_i sf) < 2)%nat → adj_entry estimate_i se_i sf = None.
Proof.
  intros Hlen. unfold adj_entry, var_na_rm.
  pose proof (length_na_rm (vmul estimate_i sf)).
  rewrite decide_True by lia. done.
Qed.

(** X18.  The diagonal of [saver.cor] is not 1 but the square of the gene's
    reliability factor: the entry at ([i], [i]) is
    [adj.vec[i] * adj.vec[i]], whatever the estimates of the gene are,
    because R sets the diagonal of [temp.cor] to 1; it is NA exactly when
    the factor is, and otherwise a number in [0, 1]. *)
Theorem saver_cor_diagonal n estimate se sf adj cor i (a : num) :
  length estimate = n → length se = n →
  adj_vec n estimate se sf = Ok adj →
  saver_cor n estimate se sf = Ok cor →
  adj !! i = Some a →
  entry cor i i = Some (nmul a a)
  ∧ (a = None ↔ nmul a a = None)
  ∧ ∀ c, nmul a a = Some c → 0 <= c <= 1.
Proof.
  intros Hest Hse Hrun Hcor Ha.
  destruct (saver_cor_value n estimate se sf cor Hest Hse Hcor)
    as (adj' & Hrun' & Hlen & Hadj & ->).
  assert (adj' = adj) as -> by congruence.
  assert (i < n)%nat as Hi by (apply lookup_lt_Some in Ha; lia).
  destruct (lookup_lt_is_Some_2 estimate i) as [x Hx]; [lia|].
  destruct (lookup_lt_is_Some_2 se i) as [s Hs]; [lia|].
  pose proof (Hadj i x s Hx Hs) as Hentry.
  assert (a = adj_entry x s sf) as Hval by congruence.
  split_and!.
  - rewrite (scaled_entry _ _ _ _ _ _ _ _ _ Hx Hx Ha Ha). f_equal.
    unfold cor_entry. destruct (decide (length (vmul x sf) < 2)%nat) as [Hfew|_].
    + by rewrite Hval, (adj_entry_few x s sf Hfew).
    + rewrite decide_True by done. destruct a as [r|]; [|done]. simpl.
      f_equal. ring.
  - by destruct a.
  - intros c Hc. destruct a as [r|]; [|done]. injection Hc as <-.
    symmetry in Hval. apply adj_entry_range in Hval. nra.
Qed.

Lemma saver_cor_diagonal_witness :
  ∃ adj cor a,
    adj_vec 2 example_estimate example_se example_sf = Ok adj
    ∧ saver_cor 2 example_estimate example_se example_sf = Ok cor
    ∧ adj !! 0%nat = Some a
    ∧ entry cor 0 0 = Some (nmul a a).
Proof.
  destruct example_saver_cor as (adj & cor & a & _ & Hrun & Ha & Hcor & _).
  exists adj, cor, (Some a). split_and!; [exact Hrun|exact Hcor|exact Ha|].
  apply (saver_cor_diagonal 2 example_estimate example_se example_sf adj cor 0 (Some a)
           eq_refl eq_refl Hrun Hcor Ha).
Defined.

Lemma mapM_id_None {A} (l : list (option A)) :
  None ∈ l → mapM Datatypes.id l = None.
Proof.
  induction l as [|[a|] l IH]; [by intros ?%elem_of_nil| |done].
  intros [|Hin]%elem_of_cons; [done|]. simpl. by rewrite IH.
Qed.

Lemma vmul_None (e sf : list num) :
  length e = length sf → None ∈ e → None ∈ vmul e sf.
Proof.
  unfold vmul. revert sf. induction e as [|a e IH]; intros sf Hlen Hin;
    [by apply elem_of_nil in Hin|].
  destruct sf as [|b sf]; [done|].
  apply elem_of_cons in Hin as [<-|Hin]; simpl; [left|].
  right. apply IH; [simpl in Hlen; lia|done].
Qed.

(** X19.  A missing estimate spoils the correlations of the gene: when the
    estimates of gene [i] have an NA, every entry of row [i] and of column
    [i] of [saver.cor] off the diagonal is NA.  (The diagonal entry is the
    square of the reliability factor, which is computed from the estimates
    that are not missing.) *)
Theorem saver_cor_missing_estimate n estimate se sf cor i j e :
  saver_fit n estimate se sf →
  saver_cor n estimate se sf = Ok cor →
  estimate !! i = Some e → None ∈ e → (j < n)%nat → j ≠ i →
  entry cor i j = Some None ∧ entry cor j i = Some None.
Proof.
  intros (_ & Hest & Hse & Hshape & _) Hcor He Hna Hj Hne.
  destruct (saver_cor_value n estimate se sf cor Hest Hse Hcor)
    as (adj & _ & Hlen & Hadj & ->).
  assert (i < n)%nat as Hi by (apply lookup_lt_Some in He; lia).
  destruct (lookup_lt_is_Some_2 estimate j) as [y Hy]; [lia|].
  destruct (lookup_lt_is_Some_2 adj i) as [a Ha]; [lia|].
  destruct (lookup_lt_is_Some_2 adj j) as [b Hb]; [lia|].
  assert (mapM Datatypes.id (vmul e sf) = None) as Hnone.
  { apply mapM_id_None, vmul_None; [|done]. rewrite Forall_forall in Hshape.
    by eapply Hshape, list_elem_of_lookup_2. }
  rewrite (scaled_entry _ _ _ _ _ _ _ _ _ He Hy Ha Hb).
  rewrite (scaled_entry _ _ _ _ _ _ _ _ _ Hy He Hb Ha).
  unfold cor_entry. rewrite !(decide_False (P := _ = _)) by done.
  unfold pearson. rewrite Hnone. simpl.
  split; repeat case_decide; try done; by destruct (mapM Datatypes.id (vmul y sf)).
Qed.

Lemma saver_cor_missing_estimate_witness :
  ∃ cor, saver_cor 2 [[Some 0; None]; [Some 2; Some 0]] example_se example_sf = Ok cor
    ∧ entry cor 0 1 = Some None ∧ entry cor 1 0 = Some None.
Proof.
  set (estimate := [[Some 0; None]; [Some 2; Some 0]] : matrix).
  destruct (adj_vec_lookup 2 estimate example_se example_sf eq_refl eq_refl)
    as (adj & Hrun & Hlen & _).
  assert (saver_cor 2 estimate example_se example_sf
          = Ok (zip_with (zip_with nmul) (temp_cor estimate example_sf) (outer adj adj)))
    as Hcor by (by apply saver_cor_Ok).
  eexists. split; [exact Hcor|].
  apply (saver_cor_missing_estimate 2 estimate example_se example_sf _ 0 1
           [Some 0; None]).
  - split_and!; [lia|reflexivity|reflexivity|repeat constructor..].
  - exact Hcor.
  - reflexivity.
  - right. left.
  - lia.
  - lia.
Defined.

Lemma adj_vec_missing_row n estimate se sf :
  (length estimate < n ∨ length se < n)%nat →
  adj_vec n estimate se sf = Raise SubscriptOutOfBounds.
Proof.
  intros Hshort. unfold adj_vec.
  set (k := (length estimate `min` length se)%nat).
  replace n with (k + S (n - S k))%nat at 1 by lia.
  rewrite seq_app, for_each_app.
  rewrite (for_each_assign_prefix k
    (λ i, adj_entry (default [] (estimate !! i)) (default [] (se !! i)) sf)).
  - cbn [seq for_each mbind result_bind plus]. unfold row.
    destruct (estimate !! k) as [e|] eqn:He; [|done]. simpl.
    rewrite (lookup_ge_None_2 se k); [done|].
    apply lookup_lt_Some in He. lia.
  - rewrite length_replicate. lia.
  - intros i acc Hi. unfold row.
    destruct (lookup_lt_is_Some_2 estimate i) as [e ->]; [lia|].
    destruct (lookup_lt_is_Some_2 se i) as [s ->]; [lia|]. done.
Qed.

Lemma adj_vec_enough_rows n estimate se sf :
  (n ≤ length estimate)%nat → (n ≤ length se)%nat →
  ∃ adj, adj_vec n estimate se sf = Ok adj ∧ length adj = n.
Proof.
  intros Hest Hse. eexists. split.
  - unfold adj_vec. apply for_each_assign with
      (g := λ i, adj_entry (default [] (estimate !! i)) (default [] (se !! i)) sf).
    + apply length_replicate.
    + intros i acc Hi. unfold row.
      destruct (lookup_lt_is_Some_2 estimate i) as [e ->]; [lia|].
      destruct (lookup_lt_is_Some_2 se i) as [s ->]; [lia|]. done.
  - by rewrite length_map, length_seq.
Qed.

(** X20.  The loop bound is written into the notebook: with estimates or
    standard errors of fewer than [n] genes the loop stops with "subscript
    out of bounds", and with estimates of more than [n] genes the product
    [temp.cor * scale.factor] stops with "non-conformable arrays"; either way
    there is no [saver.cor]. *)
Theorem saver_cor_gene_count n estimate se sf :
  ((length estimate < n ∨ length se < n)%nat →
   saver_cor n estimate se sf = Raise SubscriptOutOfBounds)
  ∧ ((n < length estimate)%nat → (n ≤ length se)%nat →
     saver_cor n estimate se sf = Raise NonConformableArrays).
Proof.
  split.
  - intros Hshort. unfold saver_cor. by rewrite adj_vec_missing_row.
  - intros Hest Hse. unfold saver_cor, mat_mul_elementwise.
    destruct (adj_vec_enough_rows n estimate se sf) as (adj & -> & Hlen); [lia|done|].
    simpl. rewrite decide_False; [done|].
    rewrite shape_temp_cor, shape_outer, Hlen. intros Heq.
    apply (f_equal length) in Heq. rewrite !length_replicate in Heq. lia.
Qed.

Lemma saver_cor_gene_count_witness :
  saver_cor 3 example_estimate example_se example_sf = Raise SubscriptOutOfBounds
  ∧ saver_cor 1 example_estimate example_se example_sf = Raise NonConformableArrays.
Proof.
  split.
  - apply (saver_cor_gene_count 3 example_estimate example_se example_sf).
    left. simpl. lia.
  - apply (saver_cor_gene_count 1 example_estimate example_se example_sf);
      simpl; lia.
Defined.

End saver_bounds.

Section size_factors_more.
Import Saver.

Lemma foldl_add_zeros (k : nat) :
  foldl Extended.add Extended.zero (replicate k Binary64.zero) = Extended.zero.
Proof. induction k as [|k IH]; [done|]. simpl. exact IH. Qed.

Lemma foldl_deviations_zeros (b : bool) (k : nat) :
  foldl (λ t xk, Extended.add t (Extended.sub xk (S754_zero b))) Extended.zero
        (replicate k Binary64.zero)
  = Extended.zero.
Proof. induction k as [|k IH]; [done|]. simpl. destruct b; exact IH. Qed.

(** The mean of zeros is a zero, or NaN when there is none. *)
Lemma mean_zeros (k : nat) :
  mean (replicate k Binary64.zero) = Binary64.nan
  ∨ ∃ b, mean (replicate k Binary64.zero) = S754_zero b.
Proof.
  unfold mean. rewrite length_replicate, foldl_add_zeros.
  generalize (Extended.of_Z (Z.of_nat k)). intros [s| s| |s m e].
  - by left.
  - right. exists s. cbn. rewrite foldl_deviations_zeros. by destruct s.
  - by left.
  - right. exists s. cbn. rewrite foldl_deviations_zeros. by destruct s.
Qed.

(** X21.  A matrix without any count has no size factors: when every
    per-cell sum is zero, each entry of [sf] is NaN (0 / 0), one for each
    cell. *)
Theorem sf_of_empty_cells (dropseq_data : count_matrix) :
  Forall (λ s, s = 0%N) (colSums dropseq_data) →
  sf dropseq_data = replicate (n_cells dropseq_data) Binary64.nan.
Proof.
  intros Hzero. unfold sf, colSums_double.
  assert (length (colSums dropseq_data) = n_cells dropseq_data) as Hlen
    by (unfold colSums; by rewrite length_map, length_seq).
  rewrite <-Hlen. clear Hlen.
  assert (map Binary64.of_N (colSums dropseq_data)
          = replicate (length (colSums dropseq_data)) Binary64.zero) as ->.
  { induction Hzero as [|s sums -> _ IH]; [done|]. simpl. by rewrite IH. }
  generalize (length (colSums dropseq_data)). intros k.
  assert (Binary64.div Binary64.zero (mean (replicate k Binary64.zero)) = Binary64.nan)
    as Hdiv.
  { destruct (mean_zeros k) as [-> | [b ->]]; reflexivity. }
  generalize dependent (mean (replicate k Binary64.zero)). intros m Hdiv.
  induction k as [|k IH]; [done|]. cbn [map replicate]. by rewrite Hdiv, IH.
Qed.

Lemma sf_of_empty_cells_witness :
  sf {| n_cells := 2; counts := [[0; 0]; [0; 0]]%N |} = [Binary64.nan; Binary64.nan].
Proof.
  apply (sf_of_empty_cells {| n_cells := 2; counts := [[0; 0]; [0; 0]]%N |}).
  repeat constructor.
Defined.

End size_factors_more.
